(** * Microphone-array configuration: a shallow embedding of
      [src/mic_array.py] and [src/util.py]

    The Python classes [Mic] and [MicArray] and the display helper
    [plot_audio_dat] are embedded as Rocq functions.  Python statements
    that mutate [self] become computations in a small state-and-exception
    monad; a raised exception keeps the state reached so far, as Python
    does (nothing is rolled back). *)

From Stdlib Require Import QArith_base.
From stdpp Require Import gmap strings list fin_maps pretty.

Open Scope string_scope.

Set Warnings "-clear-no-such-hyp".

(** ** Python values that occur in the program *)

(** A microphone name, [Optional[Union[int, str]]] in the source. *)
Inductive pyname :=
| NoneName
| IntName (i : Z)
| StrName (s : string).

#[global] Instance pyname_eq_dec : EqDecision pyname.
Proof. solve_decision. Defined.

#[global] Instance pyname_countable : Countable pyname.
Proof.
  refine (inj_countable'
    (λ n, match n with
          | NoneName => inl ()
          | IntName i => inr (inl i)
          | StrName s => inr (inr s)
          end)
    (λ c, match c with
          | inl _ => NoneName
          | inr (inl i) => IntName i
          | inr (inr s) => StrName s
          end) _).
  by intros [].
Defined.

(** [str(name)], as an f-string renders a name. *)
Definition str (n : pyname) : string :=
  match n with
  | NoneName => "None"
  | IntName i => pretty i
  | StrName s => s
  end.

(** A coordinate vector.  Positions are stored and handed back, never
    computed with, so a number is kept as the rational it denotes. *)
Definition coords := list Q.

(** [np.ndarray]: the array [np.array(xs)] holds the numbers of [xs]. *)
Record ndarray := np_array { array_data : coords }.

(** A parsed JSON object describing one microphone ([json_mic_obj: dict]).
    The program reads the keys ["name"], ["fS"] and ["pos"] only; a field
    is [None] when the dict has no such key.  A value has the type that
    the class declares for the attribute it is stored in: a name (JSON
    null, integer or string), an [int] rate, an array of numbers. *)
Record json_mic_obj := JsonMic {
  json_name : option pyname;
  json_fS : option Z;
  json_pos : option coords
}.

(** [key in json_mic_obj] for the keys the program asks about. *)
Definition has_key (key : string) (o : json_mic_obj) : bool :=
  if String.eqb key "name" then bool_decide (is_Some (json_name o))
  else if String.eqb key "fS" then bool_decide (is_Some (json_fS o))
  else if String.eqb key "pos" then bool_decide (is_Some (json_pos o))
  else false.

(** ** Exceptions and the monad of a method body *)

Inductive exn :=
| ConfigError (msg : string)
| InvalidInput (msg : string)
| KeyError (key : string)
| AttributeError (attr : string)
| TypeError (msg : string)
| ValueError (msg : string)
| OSError (fname : string).

Inductive outcome (A : Type) :=
| Return (a : A)
| Raise (e : exn).
Arguments Return {A} a.
Arguments Raise {A} e.

(** A method body over the object state [S]: it ends normally or by
    raising, and in both cases leaves a state behind. *)
Definition M (S A : Type) : Type := S → outcome A * S.

Definition ret {S A} (a : A) : M S A := λ s, (Return a, s).
Definition raise {S A} (e : exn) : M S A := λ s, (Raise e, s).
Definition bind {S A B} (m : M S A) (k : A → M S B) : M S B :=
  λ s, match m s with
       | (Return a, s') => k a s'
       | (Raise e, s') => (Raise e, s')
       end.
Definition get {S} : M S S := λ s, (Return s, s).
Definition modify {S} (f : S → S) : M S () := λ s, (Return (), f s).
Definition lift {S A} (o : outcome A) : M S A := λ s, (o, s).

Declare Scope py_scope.
Delimit Scope py_scope with py.
Notation "x <- m ;; k" := (bind m (λ x, k))
  (at level 100, m at next level, right associativity) : py_scope.
Notation "m ;; k" := (bind m (λ _, k))
  (at level 100, right associativity) : py_scope.
Open Scope py_scope.

(** [for x in xs: body x], stopping at the first exception. *)
Fixpoint for_each {S A} (xs : list A) (body : A → M S ()) : M S () :=
  match xs with
  | [] => ret ()
  | x :: rest => body x ;; for_each rest body
  end.

(** ** class Mic *)

Record Mic := Build_Mic {
  name : pyname;
  fS : Z;
  pos : ndarray
}.

Definition set_name (n : pyname) (mic : Mic) : Mic :=
  {| name := n; fS := fS mic; pos := pos mic |}.
Definition set_pos (p : ndarray) (mic : Mic) : Mic :=
  {| name := name mic; fS := fS mic; pos := p |}.

(** The attributes of a [Mic] instance while [__init__] runs: a fresh
    instance has none, and each [self.x = v] sets one. *)
Record MicAttrs := Build_MicAttrs {
  attr_name : option pyname;
  attr_fS : option Z;
  attr_pos : option ndarray
}.

Definition no_attrs : MicAttrs :=
  {| attr_name := None; attr_fS := None; attr_pos := None |}.

Definition assign_name (n : pyname) (self : MicAttrs) : MicAttrs :=
  {| attr_name := Some n; attr_fS := attr_fS self; attr_pos := attr_pos self |}.
Definition assign_fS (f : Z) (self : MicAttrs) : MicAttrs :=
  {| attr_name := attr_name self; attr_fS := Some f; attr_pos := attr_pos self |}.
Definition assign_pos (p : ndarray) (self : MicAttrs) : MicAttrs :=
  {| attr_name := attr_name self; attr_fS := attr_fS self; attr_pos := Some p |}.

(** [json_mic_obj[key]]: a missing key raises [KeyError]. *)
Definition subscript {A} (key : string) (field : option A) : outcome A :=
  match field with
  | Some v => Return v
  | None => Raise (KeyError key)
  end.

(** Reading the finished instance; an attribute that was never assigned
    raises [AttributeError]. *)
Definition Mic_of_attrs (self : MicAttrs) : outcome Mic :=
  match attr_name self, attr_fS self, attr_pos self with
  | Some n, Some f, Some p => Return (Build_Mic n f p)
  | None, _, _ => Raise (AttributeError "name")
  | _, None, _ => Raise (AttributeError "fS")
  | _, _, None => Raise (AttributeError "pos")
  end.

Definition required_params : list string := ["fS"; "pos"].

Definition newline : string := String (Ascii.ascii_of_nat 10) EmptyString.

Section MicClass.

(** [json.dumps(json_mic_obj, indent=4)], the library's rendering of
    the object. *)
Variable json_dumps : json_mic_obj → string.

Definition missing_param_msg (param : string) (o : json_mic_obj) : string :=
  "Mic config json missing required parameter " ++ param
    ++ ", attempted to parse json object:" ++ newline ++ " "
    ++ json_dumps o.

Definition Mic__init__ (o : json_mic_obj) (default_name : pyname)
  : M MicAttrs () :=
  for_each required_params (λ param,
    if has_key param o then ret ()
    else raise (ConfigError (missing_param_msg param o))) ;;
  n <- (if has_key "name" o then lift (subscript "name" (json_name o))
        else ret default_name) ;;
  modify (assign_name n) ;;
  f <- lift (subscript "fS" (json_fS o)) ;;
  modify (assign_fS f) ;;
  p <- lift (subscript "pos" (json_pos o)) ;;
  modify (assign_pos (np_array p)).

(** The expression [Mic(json_mic_obj, default_name)]: a fresh instance
    is initialised, and is the value only if [__init__] returns. *)
Definition Mic_new (o : json_mic_obj) (default_name : pyname)
  : outcome Mic :=
  match Mic__init__ o default_name no_attrs with
  | (Return _, self) => Mic_of_attrs self
  | (Raise e, _) => Raise e
  end.

End MicClass.

(** ** class MicArray *)

(** A [Mic] instance is created by [_load_cfg] and stored in [mics]; the
    list is never reordered, so the instance's identity is its index in
    [mics].  [name_to_mic] holds references to those same instances, that
    is, indices: what is written through [name_to_mic[n]] is read back
    through [mics[i]]. *)
Record MicArray := Build_MicArray {
  cfg_fname : string;
  nChannels : nat;
  mics : list Mic;
  valid_names : option bool;
  name_to_mic : gmap pyname nat
}.

(** The instance before [__init__] has assigned anything. *)
Definition blank : MicArray :=
  {| cfg_fname := ""; nChannels := 0; mics := [];
     valid_names := None; name_to_mic := ∅ |}.

Definition set_cfg_fname (f : string) (self : MicArray) : MicArray :=
  {| cfg_fname := f; nChannels := nChannels self; mics := mics self;
     valid_names := valid_names self; name_to_mic := name_to_mic self |}.
Definition set_nChannels (n : nat) (self : MicArray) : MicArray :=
  {| cfg_fname := cfg_fname self; nChannels := n; mics := mics self;
     valid_names := valid_names self; name_to_mic := name_to_mic self |}.
Definition set_mics (ms : list Mic) (self : MicArray) : MicArray :=
  {| cfg_fname := cfg_fname self; nChannels := nChannels self; mics := ms;
     valid_names := valid_names self; name_to_mic := name_to_mic self |}.
Definition set_valid_names (v : option bool) (self : MicArray) : MicArray :=
  {| cfg_fname := cfg_fname self; nChannels := nChannels self;
     mics := mics self; valid_names := v; name_to_mic := name_to_mic self |}.
Definition set_name_to_mic (d : gmap pyname nat) (self : MicArray) : MicArray :=
  {| cfg_fname := cfg_fname self; nChannels := nChannels self;
     mics := mics self; valid_names := valid_names self; name_to_mic := d |}.

(** [{mic.name: mic for mic in mics}], the mics being those at indices
    [idx], [idx + 1], ...; a later mic overwrites an equal key. *)
Fixpoint dict_by_name (idx : nat) (ms : list Mic) (d : gmap pyname nat)
  : gmap pyname nat :=
  match ms with
  | [] => d
  | mic :: rest => dict_by_name (S idx) rest (<[name mic := idx]> d)
  end.

Section MicArrayInit.

Variable json_dumps : json_mic_obj → string.

(** [open(fname)] followed by [json.load]: the parsed array of the
    file, or the exception of the I/O or parsing layer. *)
Variable json_load_file : string → outcome (list json_mic_obj).

(** [self.mics.append(Mic(json_mic_obj))] *)
Definition append_mic (json_mic_obj : json_mic_obj) : M MicArray () :=
  mic <- lift (Mic_new json_dumps json_mic_obj NoneName) ;;
  modify (λ self, set_mics (mics self ++ [mic]) self).

Definition _load_cfg : M MicArray () :=
  self <- get ;;
  data <- lift (json_load_file (cfg_fname self)) ;;
  modify (set_nChannels (length data)) ;;
  modify (set_mics []) ;;
  for_each data append_mic.

Definition MicArray__init__ (fname : string) : M MicArray () :=
  modify (set_cfg_fname fname) ;;
  _load_cfg ;;
  modify (set_valid_names None) ;;
  modify (λ self, set_name_to_mic (dict_by_name 0 (mics self) ∅) self).

(** The expression [MicArray(cfg_fname)]. *)
Definition MicArray_new (fname : string) : outcome MicArray :=
  match MicArray__init__ fname blank with
  | (Return _, self) => Return self
  | (Raise e, _) => Raise e
  end.

End MicArrayInit.

(** [validate_names]: the loop, with the set [names] of names seen. *)
Fixpoint validate_loop (names : gset pyname) (ms : list Mic) : bool :=
  match ms with
  | [] => true
  | mic :: rest =>
      if bool_decide (name mic = NoneName) || bool_decide (name mic ∈ names)
      then false
      else validate_loop (names ∪ {[name mic]}) rest
  end.

Definition validate_names : M MicArray bool :=
  self <- get ;;
  let ok := validate_loop ∅ (mics self) in
  modify (set_valid_names (Some ok)) ;;
  ret ok.

(** [gen_names]: [enumerate] counts from [idx]. *)
Fixpoint gen_names_from (idx : nat) (ms : list Mic) : list Mic :=
  match ms with
  | [] => []
  | mic :: rest =>
      set_name (IntName (Z.of_nat idx)) mic :: gen_names_from (S idx) rest
  end.

Definition gen_names : M MicArray () :=
  modify (λ self, set_mics (gen_names_from 0 (mics self)) self).

(** [get_sample_freq]: the loop, with the current [rval]. *)
Fixpoint sample_freq_loop (rval : option Z) (ms : list Mic) : option Z :=
  match ms with
  | [] => rval
  | mic :: rest =>
      if bool_decide (rval ≠ None) && bool_decide (rval ≠ Some (fS mic))
      then None
      else sample_freq_loop (Some (fS mic)) rest
  end.

Definition get_sample_freq : M MicArray (option Z) :=
  self <- get ;;
  ret (sample_freq_loop None (mics self)).

Definition __contains__ (n : pyname) : M MicArray bool :=
  self <- get ;;
  ret (bool_decide (is_Some (name_to_mic self !! n))).

Definition no_such_mic_msg (mic_name : pyname) : string :=
  "Mic name " ++ str mic_name ++ " does not exist in the mic array".

(** [self.name_to_mic[mic_name].pos = p]: the subscript raises [KeyError]
    on a missing key, the assignment writes to the referenced instance. *)
Definition assign_pos_by_name (mic_name : pyname) (p : ndarray)
  : M MicArray () :=
  self <- get ;;
  match name_to_mic self !! mic_name with
  | Some i => modify (set_mics (alter (set_pos p) i (mics self)))
  | None => raise (KeyError (str mic_name))
  end.

(** [locs] is the list of the items of the dict, in iteration order. *)
Definition set_mic_locs (locs : list (pyname * coords)) : M MicArray () :=
  for_each locs (λ '(mic_name, pos),
    found <- __contains__ mic_name ;;
    if found then assign_pos_by_name mic_name (np_array pos)
    else raise (InvalidInput (no_such_mic_msg mic_name))).

(** ** util.plot_audio_dat *)

(** [max(xs)] on a list of lengths; the empty list raises. *)
Definition py_max (xs : list nat) : outcome nat :=
  match xs with
  | [] => Raise (ValueError "max() arg is an empty sequence")
  | x :: rest => Return (foldr Nat.max x rest)
  end.

Section Util.

(** Array elements are floating-point numbers; the program uses the
    constant [0] (padding), the conversion of a [range] index and the
    elementwise division, kept abstract here. *)
Variable F : Type.
Variable zero : F.
Variable of_index : nat → F.
Variable fdiv : F → F → F.

(** One subplot: its title, the curves drawn as pairs (x data, y data),
    and the axis labels. *)
Record Axes := Build_Axes {
  title : option string;
  curves : list (list F * list F);
  xlabel : option string;
  ylabel : option string
}.

(** The figure that pyplot holds. *)
Record Figure := Build_Figure {
  suptitle : option string;
  subplots : list Axes;
  tight : bool;
  shown : bool
}.

Definition empty_axes : Axes :=
  {| title := None; curves := []; xlabel := None; ylabel := None |}.
Definition no_figure : Figure :=
  {| suptitle := None; subplots := []; tight := false; shown := false |}.

Definition with_subplots (axs : list Axes) (fig : Figure) : Figure :=
  {| suptitle := suptitle fig; subplots := axs;
     tight := tight fig; shown := shown fig |}.
Definition with_suptitle (t : string) (fig : Figure) : Figure :=
  {| suptitle := Some t; subplots := subplots fig;
     tight := tight fig; shown := shown fig |}.
Definition with_tight (fig : Figure) : Figure :=
  {| suptitle := suptitle fig; subplots := subplots fig;
     tight := true; shown := shown fig |}.
Definition with_shown (fig : Figure) : Figure :=
  {| suptitle := suptitle fig; subplots := subplots fig;
     tight := tight fig; shown := true |}.

Definition with_title (t : string) (ax : Axes) : Axes :=
  {| title := Some t; curves := curves ax;
     xlabel := xlabel ax; ylabel := ylabel ax |}.
Definition with_curve (x y : list F) (ax : Axes) : Axes :=
  {| title := title ax; curves := curves ax ++ [(x, y)];
     xlabel := xlabel ax; ylabel := ylabel ax |}.
Definition with_labels (xl yl : string) (ax : Axes) : Axes :=
  {| title := title ax; curves := curves ax;
     xlabel := Some xl; ylabel := Some yl |}.

(** What [plt.subplots] hands back as [axs].  With the default
    [squeeze=True], matplotlib returns the single [Axes] object itself
    when one subplot is asked for, and an array of [Axes] otherwise.  An
    [Axes] is referred to by its index among the figure's subplots. *)
Inductive axs_value :=
| SingleAxes (ax : nat)
| AxesArray (axs : list nat).

(** [plt.subplots(nrows)] *)
Definition plt_subplots (nrows : nat) : M Figure axs_value :=
  match nrows with
  | 0 => raise (ValueError "Number of rows must be a positive integer")
  | 1 => modify (with_subplots [empty_axes]) ;; ret (SingleAxes 0)
  | _ => modify (with_subplots (replicate nrows empty_axes)) ;;
         ret (AxesArray (seq 0 nrows))
  end.

(** [zip(axs, items)]: [zip] asks each argument for an iterator, and an
    [Axes] object has none. *)
Definition zip_axs {A} (axs : axs_value) (items : list A)
  : outcome (list (nat * A)) :=
  match axs with
  | SingleAxes _ => Raise (TypeError "'Axes' object is not iterable")
  | AxesArray l => Return (zip l items)
  end.

Definition on_axes (ax : nat) (f : Axes → Axes) : M Figure () :=
  modify (λ fig, with_subplots (alter f ax (subplots fig)) fig).

(** [ax.plot(x, y)]; matplotlib refuses data of different lengths. *)
Definition ax_plot (ax : nat) (x y : list F) : M Figure () :=
  if Nat.eqb (length x) (length y) then on_axes ax (with_curve x y)
  else raise (ValueError "x and y must have same first dimension").

(** [np.pad(a, ((0, after),))]: [after] zeros appended. *)
Definition np_pad_right (a : list F) (after : nat) : list F :=
  a ++ replicate after zero.

(** [np.array(range(n)) / fS] *)
Definition time_axis (n : nat) (fS : F) : list F :=
  map (λ i, fdiv (of_index i) fS) (seq 0 n).

(** The body of the loop of [plot_audio_dat]. *)
Definition plot_channel (t : list F) (max_len : nat)
    (item : nat * (pyname * list F)) : M Figure () :=
  let '(ax, (n, audio_signal)) := item in
  on_axes ax
    (with_title ("Audio source from speaker/microphone " ++ str n)) ;;
  ax_plot ax t
    (np_pad_right audio_signal (max_len - length audio_signal)) ;;
  on_axes ax (with_labels "Time (s)" "Signal").

(** [audio_dat] is the list of the items of the dict, in its order. *)
Definition plot_audio_dat (audio_dat : list (pyname * list F)) (fS : F)
  : M Figure () :=
  axs <- plt_subplots (length audio_dat) ;;
  modify (with_suptitle "Audio data") ;;
  max_len <- lift (py_max (map (λ e, length e.2) audio_dat)) ;;
  let t := time_axis max_len fS in
  pairs <- lift (zip_axs axs audio_dat) ;;
  for_each pairs (plot_channel t max_len) ;;
  modify with_tight ;;
  modify with_shown.

(** The subplot expected for one channel: its title, one curve of the
    padded signal over the time axis, and the axis labels. *)
Definition drawn (t : list F) (max_len : nat) (e : pyname * list F)
  : Axes :=
  {| title := Some ("Audio source from speaker/microphone " ++ str e.1);
     curves := [(t, np_pad_right e.2 (max_len - length e.2))];
     xlabel := Some "Time (s)";
     ylabel := Some "Signal" |}.

(** The length of the longest signal. *)
Definition longest (audio_dat : list (pyname * list F)) : nat :=
  foldr Nat.max 0 (map (λ e, length e.2) audio_dat).

End Util.

Arguments Build_Axes {F}.
Arguments Build_Figure {F}.
Arguments title {F}.
Arguments curves {F}.
Arguments xlabel {F}.
Arguments ylabel {F}.
Arguments suptitle {F}.
Arguments subplots {F}.
Arguments tight {F}.
Arguments shown {F}.
Arguments no_figure {F}.
Arguments empty_axes {F}.

(** ** Specification-side helpers *)

(** The first required parameter that [o] lacks, if any. *)
Definition first_missing_param (o : json_mic_obj) : option string :=
  match json_fS o, json_pos o with
  | None, _ => Some "fS"
  | Some _, None => Some "pos"
  | Some _, Some _ => None
  end.

(** The [Mic] that a complete microphone object describes when no
    default name is supplied. *)
Definition mic_of_json (o : json_mic_obj) : Mic :=
  {| name := default NoneName (json_name o);
     fS := default 0%Z (json_fS o);
     pos := np_array (default [] (json_pos o)) |}.

(** A microphone object with both required keys. *)
Definition complete (o : json_mic_obj) : Prop :=
  has_key "fS" o = true ∧ has_key "pos" o = true.

(** The array that [MicArray(fname)] builds from the parsed [data]. *)
Definition loaded (fname : string) (data : list json_mic_obj) : MicArray :=
  {| cfg_fname := fname;
     nChannels := length data;
     mics := mic_of_json <$> data;
     valid_names := None;
     name_to_mic := dict_by_name 0 (mic_of_json <$> data) ∅ |}.

(** The prefix of [locs] that [set_mic_locs] gets through: the pairs
    before the first name that is not a key of [d]. *)
Fixpoint processed (d : gmap pyname nat) (locs : list (pyname * coords))
  : list (pyname * coords) :=
  match locs with
  | [] => []
  | (n, p) :: rest =>
      if bool_decide (is_Some (d !! n)) then (n, p) :: processed d rest
      else []
  end.

(** The position that the last pair of [locs] naming mic [i] gives it. *)
Fixpoint last_pos (d : gmap pyname nat) (locs : list (pyname * coords))
  (i : nat) : option coords :=
  match locs with
  | [] => None
  | (n, p) :: rest =>
      match last_pos d rest i with
      | Some q => Some q
      | None => if bool_decide (d !! n = Some i) then Some p else None
      end
  end.

(** The mics after the position writes of [locs], in order; a pair whose
    name is not a key writes nothing. *)
Fixpoint write_all (d : gmap pyname nat) (locs : list (pyname * coords))
  (ms : list Mic) : list Mic :=
  match locs with
  | [] => ms
  | (n, p) :: rest =>
      write_all d rest
        (match d !! n with
         | Some i => alter (set_pos (np_array p)) i ms
         | None => ms
         end)
  end.

(** The name of a pair of [locs] is a key of [d]. *)
Definition known (d : gmap pyname nat) (e : pyname * coords) : Prop :=
  is_Some (d !! e.1).

(** Every reference held by [name_to_mic] is to a mic of the list, and
    no mic is held under two names. *)
Definition refs_valid (arr : MicArray) : Prop :=
  ∀ n i, name_to_mic arr !! n = Some i → is_Some (mics arr !! i).
Definition refs_distinct (arr : MicArray) : Prop :=
  ∀ n n' i, name_to_mic arr !! n = Some i → name_to_mic arr !! n' = Some i →
            n = n'.

(** The first name of [locs] that is not a key of [d]. *)
Fixpoint first_missing (d : gmap pyname nat) (locs : list (pyname * coords))
  : option pyname :=
  match locs with
  | [] => None
  | (n, _) :: rest =>
      if bool_decide (is_Some (d !! n)) then first_missing d rest
      else Some n
  end.

(** ** A configuration to run the program on *)

Definition origin : coords := [inject_Z 0; inject_Z 0; inject_Z 0].
Definition unit_x : coords := [inject_Z 1; inject_Z 0; inject_Z 0].

Definition mic_A : json_mic_obj :=
  {| json_name := Some (StrName "A"); json_fS := Some 16000%Z;
     json_pos := Some origin |}.
Definition mic_B : json_mic_obj :=
  {| json_name := Some (StrName "B"); json_fS := Some 16000%Z;
     json_pos := Some unit_x |}.
Definition mic_unnamed : json_mic_obj :=
  {| json_name := None; json_fS := Some 8000%Z; json_pos := Some unit_x |}.
Definition mic_no_pos : json_mic_obj :=
  {| json_name := Some (StrName "C"); json_fS := Some 16000%Z;
     json_pos := None |}.

(** A file system with two configuration files. *)
Definition example_files (fname : string) : outcome (list json_mic_obj) :=
  if String.eqb fname "mic_cfg.json" then Return [mic_A; mic_B]
  else if String.eqb fname "unnamed.json" then Return [mic_A; mic_unnamed]
  else Raise (OSError fname).

(** A rendering of a microphone object that shows its keys. *)
Definition example_dumps (o : json_mic_obj) : string :=
  "{" ++ (if has_key "name" o then "name " else "")
      ++ (if has_key "fS" o then "fS " else "")
      ++ (if has_key "pos" o then "pos " else "") ++ "}".

(** The array of ["mic_cfg.json"], the array of ["unnamed.json"], and an
    update that names an unknown mic between two known ones. *)
Definition example_array : MicArray := loaded "mic_cfg.json" [mic_A; mic_B].
Definition unnamed_array : MicArray :=
  loaded "unnamed.json" [mic_A; mic_unnamed].
Definition example_locs : list (pyname * coords) :=
  [(StrName "A", unit_x); (StrName "Z", origin); (StrName "B", origin)].

(** ** Clients of a MicArray *)

(** A call of one of the public methods on an array. *)
Inductive call :=
| call_validate_names
| call_gen_names
| call_get_sample_freq
| call_contains (n : pyname)
| call_set_mic_locs (locs : list (pyname * coords)).

(** The array after a call, whether the call returned or raised. *)
Definition after_call (arr : MicArray) (c : call) : MicArray :=
  match c with
  | call_validate_names => (validate_names arr).2
  | call_gen_names => (gen_names arr).2
  | call_get_sample_freq => (get_sample_freq arr).2
  | call_contains n => (__contains__ n arr).2
  | call_set_mic_locs locs => (set_mic_locs locs arr).2
  end.

(** The array after a sequence of calls. *)
Definition after_calls (arr : MicArray) (cs : list call) : MicArray :=
  foldl after_call arr cs.

(** A file system in which every configuration file holds the empty
    array. *)
Definition empty_files (fname : string) : outcome (list json_mic_obj) :=
  Return [].


(** A session on the example array. *)
Definition example_calls : list call :=
  [call_validate_names; call_set_mic_locs example_locs; call_gen_names;
   call_contains (IntName 0); call_get_sample_freq].

(** Two channels of different lengths, with integer samples. *)
Definition example_audio : list (pyname * list Z) :=
  [(StrName "A", [5; 6; 7; 8]%Z); (IntName 1, [9]%Z)].

(** * Properties *)

(** ** The monad *)

Section MonadFacts.

Context {S A B : Type}.

Lemma bind_ret (a : A) (k : A → M S B) (s : S) : bind (ret a) k s = k a s.
Proof. reflexivity. Qed.

Lemma bind_raise (e : exn) (k : A → M S B) (s : S) :
  bind (raise e) k s = (Raise e, s).
Proof. reflexivity. Qed.

Lemma bind_returns (m : M S A) (k : A → M S B) (s s' : S) (a : A) :
  m s = (Return a, s') → bind m k s = k a s'.
Proof. unfold bind. by intros ->. Qed.

Lemma bind_raises (m : M S A) (k : A → M S B) (s s' : S) (e : exn) :
  m s = (Raise e, s') → bind m k s = (Raise e, s').
Proof. unfold bind. by intros ->. Qed.

End MonadFacts.

(** A loop runs its first turn, and goes on only if that turn returns. *)
Lemma for_each_cons {S A} (x : A) (xs : list A) (body : A → M S ()) (s : S) :
  for_each (x :: xs) body s
  = match body x s with
    | (Return _, s') => for_each xs body s'
    | (Raise e, s') => (Raise e, s')
    end.
Proof. reflexivity. Qed.

Lemma for_each_app {S A} (xs ys : list A) (body : A → M S ()) (s : S) :
  for_each (xs ++ ys) body s
  = match for_each xs body s with
    | (Return _, s') => for_each ys body s'
    | (Raise e, s') => (Raise e, s')
    end.
Proof.
  revert s. induction xs as [|x xs IH]; intros s; [done|].
  simpl app. rewrite !for_each_cons.
  destruct (body x s) as [[[]|e] s']; [apply IH|done].
Qed.

(** ** Strings *)

Lemma string_app_assoc (a b c : string) : (a ++ b) ++ c = a ++ (b ++ c).
Proof.
  induction a as [|ch a IH]; [reflexivity|].
  change (String ch ((a ++ b) ++ c) = String ch (a ++ (b ++ c))).
  by rewrite IH.
Qed.

(** ** Mic construction *)

Section MicFacts.

Variable json_dumps : json_mic_obj → string.

Lemma has_key_fS o : has_key "fS" o = bool_decide (is_Some (json_fS o)).
Proof. reflexivity. Qed.

Lemma has_key_pos o : has_key "pos" o = bool_decide (is_Some (json_pos o)).
Proof. reflexivity. Qed.

Lemma has_key_name o :
  has_key "name" o = bool_decide (is_Some (json_name o)).
Proof. reflexivity. Qed.

Lemma Mic_init_raises o dn self param :
  first_missing_param o = Some param →
  Mic__init__ json_dumps o dn self
  = (Raise (ConfigError (missing_param_msg json_dumps param o)), self).
Proof.
  unfold first_missing_param, Mic__init__, bind. simpl.
  rewrite has_key_fS, has_key_pos.
  destruct (json_fS o) as [f|], (json_pos o) as [p|]; simpl;
    intros [= <-]; reflexivity.
Qed.

Lemma Mic_init_returns o dn self f p :
  json_fS o = Some f → json_pos o = Some p →
  Mic__init__ json_dumps o dn self
  = (Return (),
     {| attr_name := Some (default dn (json_name o));
        attr_fS := Some f; attr_pos := Some (np_array p) |}).
Proof.
  intros Hf Hp. unfold Mic__init__, bind. simpl.
  rewrite has_key_fS, has_key_pos, has_key_name, Hf, Hp. simpl.
  destruct (json_name o); reflexivity.
Qed.

Lemma Mic_new_returns o dn f p :
  json_fS o = Some f → json_pos o = Some p →
  Mic_new json_dumps o dn
  = Return {| name := default dn (json_name o); fS := f;
              pos := np_array p |}.
Proof.
  intros Hf Hp. unfold Mic_new.
  by rewrite (Mic_init_returns o dn no_attrs f p).
Qed.

Lemma Mic_new_raises o dn param :
  first_missing_param o = Some param →
  Mic_new json_dumps o dn
  = Raise (ConfigError (missing_param_msg json_dumps param o)).
Proof.
  intros H. unfold Mic_new. by rewrite (Mic_init_raises o dn no_attrs param).
Qed.

Lemma first_missing_param_cases o param :
  first_missing_param o = Some param →
  param ∈ required_params ∧ has_key param o = false.
Proof.
  unfold first_missing_param, required_params.
  destruct (json_fS o) as [f|] eqn:Hf, (json_pos o) as [p|] eqn:Hp;
    intros [= <-]; (split; [set_solver|]).
  - by rewrite has_key_pos, Hp.
  - by rewrite has_key_fS, Hf.
  - by rewrite has_key_fS, Hf.
Qed.

(** C6.  A mapping without the key fS or without the key pos makes
    [Mic.__init__] raise [ConfigError]; the message names the first
    missing required parameter and ends with the dump of the object;
    the instance has the attributes it had before the call (none, for
    the fresh instance of [Mic(...)]), and [Mic(...)] yields no object. *)
Theorem Mic_missing_required_raises o dn self :
  has_key "fS" o = false ∨ has_key "pos" o = false →
  ∃ param msg,
    param ∈ required_params ∧ has_key param o = false ∧
    msg = missing_param_msg json_dumps param o ∧
    (∃ front, msg = front ++ json_dumps o) ∧
    Mic__init__ json_dumps o dn self = (Raise (ConfigError msg), self) ∧
    Mic__init__ json_dumps o dn no_attrs
      = (Raise (ConfigError msg), no_attrs) ∧
    Mic_new json_dumps o dn = Raise (ConfigError msg).
Proof.
  intros Hmiss.
  assert (∃ param, first_missing_param o = Some param) as [param Hp].
  { unfold first_missing_param.
    rewrite has_key_fS, has_key_pos in Hmiss.
    destruct (json_fS o), (json_pos o); eauto.
    destruct Hmiss as [H|H]; simpl in H; discriminate. }
  destruct (first_missing_param_cases o param Hp) as [Hin Hno].
  exists param, (missing_param_msg json_dumps param o).
  repeat split; try done.
  - unfold missing_param_msg. eexists.
    rewrite <- !string_app_assoc. reflexivity.
  - by apply Mic_init_raises.
  - by apply Mic_init_raises.
  - by apply Mic_new_raises.
Qed.

End MicFacts.

Lemma Mic_missing_required_raises_witness :
  (has_key "fS" mic_no_pos = false ∨ has_key "pos" mic_no_pos = false) ∧
  ∃ param msg,
    param ∈ required_params ∧ has_key param mic_no_pos = false ∧
    msg = missing_param_msg example_dumps param mic_no_pos ∧
    (∃ front, msg = front ++ example_dumps mic_no_pos) ∧
    Mic__init__ example_dumps mic_no_pos NoneName no_attrs
      = (Raise (ConfigError msg), no_attrs) ∧
    Mic__init__ example_dumps mic_no_pos NoneName no_attrs
      = (Raise (ConfigError msg), no_attrs) ∧
    Mic_new example_dumps mic_no_pos NoneName = Raise (ConfigError msg).
Proof.
  split.
  - right. reflexivity.
  - apply (Mic_missing_required_raises example_dumps mic_no_pos NoneName
             no_attrs).
    right. reflexivity.
Defined.

(** ** MicArray construction *)

Lemma complete_fields o :
  complete o ↔ ∃ f p, json_fS o = Some f ∧ json_pos o = Some p.
Proof.
  unfold complete. rewrite has_key_fS, has_key_pos.
  destruct (json_fS o) as [f|], (json_pos o) as [p|]; simpl; split.
  all: try (intros [? ?]; discriminate).
  all: try (intros (? & ? & ? & ?); discriminate).
  - eauto.
  - done.
Qed.

Lemma complete_iff_none_missing o :
  complete o ↔ first_missing_param o = None.
Proof.
  rewrite complete_fields. unfold first_missing_param.
  destruct (json_fS o), (json_pos o); split; try done; eauto.
  all: intros (? & ? & ? & ?); discriminate.
Qed.

Section MicArrayFacts.

Variable json_dumps : json_mic_obj → string.
Variable json_load_file : string → outcome (list json_mic_obj).

Lemma Mic_new_complete o :
  complete o → Mic_new json_dumps o NoneName = Return (mic_of_json o).
Proof.
  intros (f & p & Hf & Hp)%complete_fields.
  rewrite (Mic_new_returns json_dumps o NoneName f p Hf Hp).
  unfold mic_of_json. by rewrite Hf, Hp.
Qed.

Lemma append_mic_complete o self :
  complete o →
  append_mic json_dumps o self
  = (Return (), set_mics (mics self ++ [mic_of_json o]) self).
Proof.
  intros Ho. unfold append_mic, bind, lift, modify.
  by rewrite (Mic_new_complete o Ho).
Qed.

Lemma append_mic_incomplete o self param :
  first_missing_param o = Some param →
  append_mic json_dumps o self
  = (Raise (ConfigError (missing_param_msg json_dumps param o)), self).
Proof.
  intros Hm. unfold append_mic, bind, lift, modify.
  by rewrite (Mic_new_raises json_dumps o NoneName param Hm).
Qed.

Lemma load_loop_complete data self :
  Forall complete data →
  for_each data (append_mic json_dumps) self
  = (Return (), set_mics (mics self ++ (mic_of_json <$> data)) self).
Proof.
  intros Hall. revert self.
  induction Hall as [|o data Ho _ IH]; intros self.
  - simpl. unfold ret. rewrite app_nil_r. by destruct self.
  - rewrite for_each_cons, (append_mic_complete o self Ho), IH. simpl.
    by rewrite <- app_assoc.
Qed.

Lemma load_loop_returns_inv data self self' :
  for_each data (append_mic json_dumps) self = (Return (), self') →
  Forall complete data.
Proof.
  revert self. induction data as [|o data IH]; intros self.
  - constructor.
  - rewrite for_each_cons.
    destruct (first_missing_param o) as [param|] eqn:Hm.
    + by rewrite (append_mic_incomplete o self param Hm).
    + apply complete_iff_none_missing in Hm.
      rewrite (append_mic_complete o self Hm). intros Hrest.
      constructor; [done|]. by eapply IH.
Qed.

Lemma MicArray_init_loaded fname data :
  json_load_file fname = Return data →
  MicArray__init__ json_dumps json_load_file fname blank
  = match for_each data (append_mic json_dumps)
            (set_mics [] (set_nChannels (length data)
               (set_cfg_fname fname blank))) with
    | (Return _, s) =>
        (Return (),
         set_name_to_mic (dict_by_name 0 (mics s) ∅)
           (set_valid_names None s))
    | (Raise e, s) => (Raise e, s)
    end.
Proof.
  intros Hload.
  unfold MicArray__init__, _load_cfg, bind, get, lift, modify.
  simpl. rewrite Hload.
  by destruct (for_each data _ _) as [[[]|e] s].
Qed.

Lemma MicArray_new_complete fname data :
  json_load_file fname = Return data →
  Forall complete data →
  MicArray_new json_dumps json_load_file fname
  = Return (loaded fname data).
Proof.
  intros Hload Hall. unfold MicArray_new.
  rewrite (MicArray_init_loaded fname data Hload).
  by rewrite (load_loop_complete data _ Hall).
Qed.

Lemma MicArray_new_inv fname arr :
  MicArray_new json_dumps json_load_file fname = Return arr →
  ∃ data, json_load_file fname = Return data ∧ Forall complete data ∧
          arr = loaded fname data.
Proof.
  intros Hnew.
  destruct (json_load_file fname) as [data|e] eqn:Hload.
  - exists data. split; [done|].
    assert (Forall complete data) as Hall.
    { unfold MicArray_new in Hnew.
      rewrite (MicArray_init_loaded fname data Hload) in Hnew.
      destruct (for_each data _ _) as [[[]|e] s] eqn:Hloop;
        [|discriminate].
      by eapply load_loop_returns_inv. }
    split; [done|].
    rewrite (MicArray_new_complete fname data Hload Hall) in Hnew.
    by injection Hnew.
  - unfold MicArray_new, MicArray__init__, _load_cfg, bind, get, lift,
      modify in Hnew. simpl in Hnew. by rewrite Hload in Hnew.
Qed.

End MicArrayFacts.



(** ** The name index built by the constructor *)

Lemma dict_by_name_snoc idx ms mic d :
  dict_by_name idx (ms ++ [mic]) d
  = <[name mic := idx + length ms]> (dict_by_name idx ms d).
Proof.
  revert idx d. induction ms as [|m ms IH]; intros idx d; simpl.
  - by rewrite Nat.add_0_r.
  - rewrite IH. by rewrite Nat.add_succ_comm.
Qed.

Lemma dict_by_name_dom ms :
  dom (dict_by_name 0 ms ∅) = list_to_set (name <$> ms).
Proof.
  induction ms as [|mic ms IH] using rev_ind.
  - simpl. by rewrite dom_empty_L.
  - rewrite dict_by_name_snoc, dom_insert_L, IH, fmap_app, list_to_set_app_L.
    simpl. set_solver.
Qed.

(** A name is mapped to the index of the last mic that bears it. *)
Lemma dict_by_name_last ms n i :
  dict_by_name 0 ms ∅ !! n = Some i ↔
  ∃ mic, ms !! i = Some mic ∧ name mic = n ∧
         ∀ j mic', i < j → ms !! j = Some mic' → name mic' ≠ n.
Proof.
  revert i. induction ms as [|m ms IH] using rev_ind; intros i.
  - simpl. rewrite lookup_empty. split; [done|].
    by intros (mic & Hmic & _).
  - rewrite dict_by_name_snoc. simpl.
    destruct (decide (name m = n)) as [Heq|Hne].
    + rewrite Heq, lookup_insert_eq. split.
      * intros [= <-]. exists m. split; [by rewrite list_lookup_middle|].
        split; [done|]. intros j mic' Hj Hlook.
        apply lookup_lt_Some in Hlook. rewrite length_app in Hlook.
        simpl in Hlook. lia.
      * intros (mic & Hmic & Hname & Hlast).
        destruct (decide (i = length ms)) as [->|Hi]; [done|].
        exfalso. apply lookup_lt_Some in Hmic as Hlt.
        rewrite length_app in Hlt. simpl in Hlt.
        apply (Hlast (length ms) m); [lia| |done].
        by rewrite list_lookup_middle.
    + rewrite lookup_insert_ne by done. rewrite IH. split.
      * intros (mic & Hmic & Hname & Hlast). exists mic.
        split; [by apply lookup_app_l_Some|]. split; [done|].
        intros j mic' Hj Hlook.
        destruct (decide (j < length ms)) as [Hlt|Hge].
        -- rewrite lookup_app_l in Hlook by done. by eapply Hlast.
        -- apply lookup_lt_Some in Hlook as Hlt.
           rewrite length_app in Hlt. simpl in Hlt.
           assert (j = length ms) as -> by lia.
           rewrite list_lookup_middle in Hlook by done.
           by injection Hlook as <-.
      * intros (mic & Hmic & Hname & Hlast).
        assert (i < length ms) as Hlt.
        { apply lookup_lt_Some in Hmic as Hlt.
          rewrite length_app in Hlt. simpl in Hlt.
          destruct (decide (i = length ms)) as [->|]; [|lia].
          rewrite list_lookup_middle in Hmic by done.
          injection Hmic as <-. done. }
        rewrite lookup_app_l in Hmic by done.
        exists mic. split; [done|]. split; [done|].
        intros j mic' Hj Hlook. apply (Hlast j mic' Hj).
        by apply lookup_app_l_Some.
Qed.

Lemma dict_by_name_size ms :
  NoDup (name <$> ms) → size (dict_by_name 0 ms ∅) = length ms.
Proof.
  intros Hnd. rewrite <- size_dom, dict_by_name_dom.
  rewrite size_list_to_set by done. by rewrite length_fmap.
Qed.

Lemma contains_spec n self :
  __contains__ n self
  = (Return (bool_decide (n ∈ dom (name_to_mic self))), self).
Proof.
  unfold __contains__, bind, get, ret. do 2 f_equal.
  apply bool_decide_ext. by rewrite elem_of_dom.
Qed.

(** What the constructor establishes. *)
Lemma constructor_establishes
    (json_dumps : json_mic_obj → string)
    (json_load_file : string → outcome (list json_mic_obj))
    (fname : string) (arr : MicArray) :
  MicArray_new json_dumps json_load_file fname = Return arr →
  name_to_mic arr = dict_by_name 0 (mics arr) ∅ ∧
  nChannels arr = length (mics arr) ∧
  valid_names arr = None ∧
  cfg_fname arr = fname.
Proof.
  intros (data & Hload & Hall & ->)%MicArray_new_inv.
  split; [done|]. split; [|done]. simpl. by rewrite length_fmap.
Qed.

(** C8.  After construction, a name is mapped to the index of the last
    mic bearing it, the keys are exactly the names of the mics, and with
    pairwise distinct names every mic is found under its own name and the
    index has [nChannels] entries; [name in array] holds exactly for the
    keys of [name_to_mic]. *)
Theorem name_to_mic_after_init
    (json_dumps : json_mic_obj → string)
    (json_load_file : string → outcome (list json_mic_obj))
    (fname : string) (arr : MicArray) :
  MicArray_new json_dumps json_load_file fname = Return arr →
  (∀ n i, name_to_mic arr !! n = Some i ↔
     ∃ mic, mics arr !! i = Some mic ∧ name mic = n ∧
            ∀ j mic', i < j → mics arr !! j = Some mic' → name mic' ≠ n) ∧
  dom (name_to_mic arr) = list_to_set (name <$> mics arr) ∧
  (NoDup (name <$> mics arr) →
     (∀ i mic, mics arr !! i = Some mic →
               name_to_mic arr !! name mic = Some i) ∧
     size (name_to_mic arr) = nChannels arr) ∧
  (∀ n, ∃ found, __contains__ n arr = (Return found, arr) ∧
                 (found = true ↔ n ∈ dom (name_to_mic arr))).
Proof.
  intros (Hd & Hn & _)%constructor_establishes.
  rewrite Hd, Hn.
  split; [apply dict_by_name_last|].
  split; [apply dict_by_name_dom|].
  split.
  - intros Hnd. split.
    + intros i mic Hmic. apply dict_by_name_last.
      exists mic. split; [done|]. split; [done|].
      intros j mic' Hj Hmic' Heq.
      assert ((name <$> mics arr) !! i = Some (name mic)) as Hi
        by (by rewrite list_lookup_fmap, Hmic).
      assert ((name <$> mics arr) !! j = Some (name mic)) as Hj'
        by (rewrite list_lookup_fmap, Hmic'; simpl; by rewrite Heq).
      pose proof (NoDup_lookup _ _ _ _ Hnd Hi Hj'). lia.
    + by apply dict_by_name_size.
  - intros n. eexists. split; [apply contains_spec|].
    by rewrite bool_decide_eq_true, Hd.
Qed.

Lemma name_to_mic_after_init_witness :
  let arr := loaded "mic_cfg.json" [mic_A; mic_B] in
  MicArray_new example_dumps example_files "mic_cfg.json" = Return arr ∧
  (∀ n i, name_to_mic arr !! n = Some i ↔
     ∃ mic, mics arr !! i = Some mic ∧ name mic = n ∧
            ∀ j mic', i < j → mics arr !! j = Some mic' → name mic' ≠ n) ∧
  dom (name_to_mic arr) = list_to_set (name <$> mics arr) ∧
  (NoDup (name <$> mics arr) →
     (∀ i mic, mics arr !! i = Some mic →
               name_to_mic arr !! name mic = Some i) ∧
     size (name_to_mic arr) = nChannels arr) ∧
  (∀ n, ∃ found, __contains__ n arr = (Return found, arr) ∧
                 (found = true ↔ n ∈ dom (name_to_mic arr))).
Proof.
  intros arr. split; [reflexivity|].
  apply (name_to_mic_after_init example_dumps example_files "mic_cfg.json").
  reflexivity.
Defined.

(** ** set_mic_locs *)

Lemma set_mics_set_mics ms ms' arr :
  set_mics ms (set_mics ms' arr) = set_mics ms arr.
Proof. reflexivity. Qed.

Lemma set_mics_same arr : set_mics (mics arr) arr = arr.
Proof. by destruct arr. Qed.

Lemma set_mic_locs_cons n p rest arr :
  set_mic_locs ((n, p) :: rest) arr
  = match name_to_mic arr !! n with
    | Some i =>
        set_mic_locs rest
          (set_mics (alter (set_pos (np_array p)) i (mics arr)) arr)
    | None => (Raise (InvalidInput (no_such_mic_msg n)), arr)
    end.
Proof.
  unfold set_mic_locs. simpl.
  unfold bind, __contains__, assign_pos_by_name, bind, get, ret, modify, raise.
  destruct (name_to_mic arr !! n) as [i|] eqn:Hn; simpl; by rewrite ?Hn.
Qed.

(** The whole run: the pairs gone through write their positions, and the
    call raises at the first unknown name. *)
Lemma set_mic_locs_run locs arr :
  set_mic_locs locs arr
  = (match first_missing (name_to_mic arr) locs with
     | None => Return ()
     | Some n => Raise (InvalidInput (no_such_mic_msg n))
     end,
     set_mics (write_all (name_to_mic arr)
                 (processed (name_to_mic arr) locs) (mics arr)) arr).
Proof.
  revert arr. induction locs as [|[n p] rest IH]; intros arr.
  - simpl. unfold set_mic_locs, for_each, ret. by rewrite set_mics_same.
  - rewrite set_mic_locs_cons. simpl.
    destruct (name_to_mic arr !! n) as [i|] eqn:Hn; simpl.
    + rewrite IH. simpl. by rewrite Hn.
    + by rewrite set_mics_same.
Qed.

Lemma set_pos_set_pos p q mic : set_pos q (set_pos p mic) = set_pos q mic.
Proof. reflexivity. Qed.

Lemma write_all_lookup d locs ms i :
  write_all d locs ms !! i
  = match last_pos d locs i with
    | Some p => set_pos (np_array p) <$> ms !! i
    | None => ms !! i
    end.
Proof.
  revert ms. induction locs as [|[n p] rest IH]; intros ms; simpl; [done|].
  rewrite IH.
  destruct (last_pos d rest i) as [q|], (d !! n) as [j|] eqn:Hn; try done.
  - destruct (decide (j = i)) as [->|Hne].
    + rewrite list_lookup_alter_eq. by destruct (ms !! i).
    + by rewrite list_lookup_alter_ne.
  - destruct (decide (j = i)) as [->|Hne].
    + rewrite list_lookup_alter_eq. by rewrite bool_decide_eq_true_2.
    + rewrite list_lookup_alter_ne by done.
      rewrite bool_decide_eq_false_2; [done|congruence].
Qed.

Lemma last_pos_None d locs i :
  last_pos d locs i = None ↔ ∀ n p, (n, p) ∈ locs → d !! n ≠ Some i.
Proof.
  induction locs as [|[n p] rest IH]; simpl.
  - split; [|done]. intros _ n p Hin. by apply elem_of_nil in Hin.
  - destruct (last_pos d rest i) as [q|].
    + split; [done|]. intros Hall. exfalso.
      assert (Some q = None) as Hq; [|done].
      apply IH. intros n' p' Hin. apply (Hall n' p'). by right.
    + case_bool_decide as Hd.
      * split; [done|]. intros Hall. exfalso. by apply (Hall n p); [left|].
      * split; [|done]. intros _ n' p' [[= -> ->]|Hin]%elem_of_cons; [done|].
        by apply (proj1 IH eq_refl n' p').
Qed.


Lemma processed_known d locs :
  Forall (known d) locs → processed d locs = locs ∧ first_missing d locs = None.
Proof.
  induction 1 as [|[n p] rest Hn _ [IH1 IH2]]; simpl; [done|].
  unfold known in Hn. simpl in Hn.
  rewrite bool_decide_eq_true_2 by done. by rewrite IH1, IH2.
Qed.


Lemma processed_are_known d locs : Forall (known d) (processed d locs).
Proof.
  induction locs as [|[n p] rest IH]; simpl; [constructor|].
  case_bool_decide; by constructor.
Qed.

Lemma write_all_length d locs ms : length (write_all d locs ms) = length ms.
Proof.
  revert ms. induction locs as [|[n p] rest IH]; intros ms; simpl; [done|].
  rewrite IH. destruct (d !! n); [apply length_alter|done].
Qed.

Lemma write_all_keeps {A} (proj : Mic → A) d locs ms :
  (∀ p mic, proj (set_pos p mic) = proj mic) →
  proj <$> write_all d locs ms = proj <$> ms.
Proof.
  intros Hproj. apply list_eq. intros i.
  rewrite !list_lookup_fmap, write_all_lookup.
  destruct (last_pos d locs i); [|done].
  destruct (ms !! i); simpl; [|done]. by rewrite Hproj.
Qed.


(** C10.  Whatever the outcome of [set_mic_locs], it is a return or the
    invalid-input error, and only positions have changed: the scalar
    fields and the name index are the same, the mics list has the same
    length and holds, slot by slot, mics of the same name and fS, and a
    mic that no processed pair names is the same altogether. *)
Theorem set_mic_locs_changes_positions_only
    (arr : MicArray) (locs : list (pyname * coords))
    (out : outcome ()) (arr' : MicArray) :
  set_mic_locs locs arr = (out, arr') →
  (out = Return () ∨ ∃ n, out = Raise (InvalidInput (no_such_mic_msg n))) ∧
  cfg_fname arr' = cfg_fname arr ∧
  nChannels arr' = nChannels arr ∧
  valid_names arr' = valid_names arr ∧
  name_to_mic arr' = name_to_mic arr ∧
  length (mics arr') = length (mics arr) ∧
  name <$> mics arr' = name <$> mics arr ∧
  fS <$> mics arr' = fS <$> mics arr ∧
  (∀ i, (∀ n p, (n, p) ∈ processed (name_to_mic arr) locs →
                name_to_mic arr !! n ≠ Some i) →
        mics arr' !! i = mics arr !! i).
Proof.
  rewrite set_mic_locs_run. intros [= <- <-]. simpl.
  split; [destruct (first_missing _ _); eauto|].
  do 4 (split; [done|]).
  split; [apply write_all_length|].
  split; [by apply write_all_keeps|].
  split; [by apply write_all_keeps|].
  intros i Hnone. rewrite write_all_lookup.
  by apply last_pos_None in Hnone as ->.
Qed.

(** ** gen_names *)

Lemma set_name_set_pos n p mic :
  set_name n (set_pos p mic) = set_pos p (set_name n mic).
Proof. reflexivity. Qed.

Lemma gen_names_from_lookup idx ms i :
  gen_names_from idx ms !! i
  = set_name (IntName (Z.of_nat (idx + i))) <$> ms !! i.
Proof.
  revert idx i. induction ms as [|mic ms IH]; intros idx i; simpl; [done|].
  destruct i as [|i]; simpl.
  - by rewrite Nat.add_0_r.
  - rewrite IH. by rewrite Nat.add_succ_comm.
Qed.

Lemma gen_names_from_length idx ms :
  length (gen_names_from idx ms) = length ms.
Proof.
  revert idx. induction ms as [|mic ms IH]; intros idx; simpl; [done|].
  by rewrite IH.
Qed.

Lemma gen_names_run arr :
  gen_names arr = (Return (), set_mics (gen_names_from 0 (mics arr)) arr).
Proof. reflexivity. Qed.

Lemma write_all_gen_names d locs ms :
  write_all d locs (gen_names_from 0 ms)
  = gen_names_from 0 (write_all d locs ms).
Proof.
  apply list_eq. intros i.
  rewrite write_all_lookup, !gen_names_from_lookup, write_all_lookup.
  destruct (last_pos d locs i), (ms !! i); done.
Qed.

(** C4.  [gen_names] returns, keeps the number of mics, and leaves the mic
    at index [i] with the integer name [i], whatever its name was; its fS
    and position are untouched. *)
Theorem gen_names_names_are_indices (arr : MicArray) :
  ∃ arr',
    gen_names arr = (Return (), arr') ∧
    length (mics arr') = length (mics arr) ∧
    (∀ i mic, mics arr !! i = Some mic →
       ∃ mic', mics arr' !! i = Some mic' ∧
               name mic' = IntName (Z.of_nat i) ∧
               fS mic' = fS mic ∧ pos mic' = pos mic) ∧
    (∀ i mic', mics arr' !! i = Some mic' → name mic' = IntName (Z.of_nat i)).
Proof.
  eexists. split; [apply gen_names_run|]. simpl.
  split; [apply gen_names_from_length|]. split.
  - intros i mic Hmic. rewrite gen_names_from_lookup, Hmic. simpl. eauto.
  - intros i mic'. rewrite gen_names_from_lookup.
    destruct (mics arr !! i); [|done]. simpl. by intros [= <-].
Qed.

(** C5.  [gen_names] leaves [name_to_mic] as it was, so [name in array]
    answers as before the renaming and [set_mic_locs] resolves names as
    before: it ends the same way and writes to the same mics, that is,
    renaming and then updating gives what updating and then renaming
    gives.  For an array fresh from its constructor the keys after
    [gen_names] are the names the mics had before it. *)
Theorem gen_names_leaves_name_to_mic_stale (arr : MicArray) :
  ∃ arr',
    gen_names arr = (Return (), arr') ∧
    name_to_mic arr' = name_to_mic arr ∧
    (∀ n found, __contains__ n arr = (Return found, arr) ↔
                __contains__ n arr' = (Return found, arr')) ∧
    (∀ locs out arr1,
       set_mic_locs locs arr = (out, arr1) →
       ∃ arr1', gen_names arr1 = (Return (), arr1') ∧
                set_mic_locs locs arr' = (out, arr1')) ∧
    (∀ json_dumps json_load_file fname,
       MicArray_new json_dumps json_load_file fname = Return arr →
       dom (name_to_mic arr') = list_to_set (name <$> mics arr)).
Proof.
  eexists. split; [apply gen_names_run|].
  split; [done|]. split; [|split].
  - intros n found. rewrite !contains_spec. simpl.
    split; intros [= <-]; done.
  - intros locs out arr1. rewrite set_mic_locs_run. intros [= <- <-].
    eexists. split; [apply gen_names_run|].
    rewrite set_mic_locs_run. simpl. by rewrite write_all_gen_names.
  - intros json_dumps json_load_file fname Hnew.
    destruct (constructor_establishes json_dumps json_load_file
                fname arr Hnew) as (Hd & _).
    simpl. rewrite Hd. apply dict_by_name_dom.
Qed.

(** ** validate_names *)

Lemma validate_loop_true seen ms :
  validate_loop seen ms = true ↔
  Forall (λ mic, name mic ≠ NoneName ∧ name mic ∉ seen) ms ∧
  NoDup (name <$> ms).
Proof.
  revert seen. induction ms as [|mic ms IH]; intros seen; simpl.
  - split; [|done]. intros _. split; constructor.
  - destruct (bool_decide (name mic = NoneName)) eqn:Hnone; simpl.
    { apply bool_decide_eq_true in Hnone. split; [done|].
      intros [Hall _]. apply Forall_cons in Hall as [[Hne _] _]. done. }
    apply bool_decide_eq_false in Hnone.
    destruct (bool_decide (name mic ∈ seen)) eqn:Hseen.
    { apply bool_decide_eq_true in Hseen. split; [done|].
      intros [Hall _]. apply Forall_cons in Hall as [[_ Hnin] _]. done. }
    apply bool_decide_eq_false in Hseen.
    rewrite IH, NoDup_cons, Forall_cons. split.
    + intros [Hall Hnd]. split; [split; [done|]|split; [|done]].
      * eapply Forall_impl; [exact Hall|]. simpl. intros m [? ?].
        split; [done|]. set_solver.
      * intros (m & Heq & Hin)%list_elem_of_fmap.
        rewrite Forall_forall in Hall. destruct (Hall m Hin) as [_ Hm].
        set_solver.
    + intros [[_ Hall] [Hnin Hnd]]. split; [|done].
      rewrite Forall_forall in Hall |- *. intros m Hin.
      destruct (Hall m Hin) as [? ?]. split; [done|].
      assert (name m ≠ name mic).
      { intros Heq. apply Hnin. apply list_elem_of_fmap. eauto. }
      set_solver.
Qed.

Lemma validate_names_run arr :
  validate_names arr
  = (Return (validate_loop ∅ (mics arr)),
     set_valid_names (Some (validate_loop ∅ (mics arr))) arr).
Proof. reflexivity. Qed.

Lemma validate_loop_spec ms :
  validate_loop ∅ ms = true ↔
  Forall (λ mic, name mic ≠ NoneName) ms ∧ NoDup (name <$> ms).
Proof.
  rewrite validate_loop_true. split; intros [Hall Hnd]; (split; [|done]).
  - eapply Forall_impl; [exact Hall|]. by intros m [? ?].
  - eapply Forall_impl; [exact Hall|]. simpl. intros m ?. split; [done|].
    set_solver.
Qed.


(** ** get_sample_freq *)

Lemma sample_freq_loop_same f ms :
  Forall (λ mic, fS mic = f) ms → sample_freq_loop (Some f) ms = Some f.
Proof.
  induction 1 as [|mic ms Hf _ IH]; simpl; [done|].
  rewrite Hf. by rewrite (bool_decide_eq_false_2 (Some f ≠ Some f)) by tauto.
Qed.

Lemma sample_freq_loop_differ f ms mic :
  mic ∈ ms → fS mic ≠ f → sample_freq_loop (Some f) ms = None.
Proof.
  revert f. induction ms as [|m ms IH]; intros f Hin Hne.
  - by apply elem_of_nil in Hin.
  - simpl. case_bool_decide as Hd; [done|].
    assert (fS m = f) as Hm by congruence.
    apply elem_of_cons in Hin as [->|Hin]; [done|].
    apply IH; [done|]. by rewrite Hm.
Qed.

Lemma get_sample_freq_run arr :
  get_sample_freq arr = (Return (sample_freq_loop None (mics arr)), arr).
Proof. reflexivity. Qed.

(** C2.  [get_sample_freq] returns, without changing the array: the
    common rate when the list is not empty and every mic has that rate,
    [None] when two mics have different rates, and [None] on the empty
    list. *)
Theorem get_sample_freq_common_or_none (arr : MicArray) :
  ∃ rval,
    get_sample_freq arr = (Return rval, arr) ∧
    (∀ f, mics arr ≠ [] → Forall (λ mic, fS mic = f) (mics arr) →
          rval = Some f) ∧
    ((∃ i j mi mj, mics arr !! i = Some mi ∧ mics arr !! j = Some mj ∧
                   fS mi ≠ fS mj) →
     rval = None) ∧
    (mics arr = [] → rval = None).
Proof.
  eexists. split; [apply get_sample_freq_run|].
  destruct (mics arr) as [|m ms] eqn:Hms.
  { split; [done|]. split; [|done]. by intros (i & j & mi & mj & Hi & _). }
  split; [|split; [|done]].
  - intros f _ Hall. apply Forall_cons in Hall as [Hm Hall]. simpl.
    rewrite Hm. by apply sample_freq_loop_same.
  - intros (i & j & mi & mj & Hi & Hj & Hne). simpl.
    destruct (decide (Forall (λ mic, fS mic = fS m) ms)) as [Hall|Hnot].
    + exfalso. apply Hne.
      assert (∀ k mk, (m :: ms) !! k = Some mk → fS mk = fS m) as Hsame.
      { intros [|k] mk Hk; simpl in Hk; [by injection Hk as <-|].
        rewrite Forall_forall in Hall. apply Hall.
        by eapply list_elem_of_lookup_2. }
      by rewrite (Hsame i mi Hi), (Hsame j mj Hj).
    + apply not_Forall_Exists in Hnot; [|intros x; apply _].
      apply Exists_exists in Hnot as (mic & Hin & Hmic).
      by apply (sample_freq_loop_differ _ _ mic).
Qed.

(** ** plot_audio_dat *)

Lemma py_max_cons x rest :
  py_max (x :: rest) = Return (foldr Nat.max 0 (x :: rest)).
Proof.
  simpl. f_equal. induction rest as [|y rest IH]; simpl; lia.
Qed.

Lemma foldr_max_bound (xs : list nat) (x : nat) :
  x ∈ xs → (x ≤ foldr Nat.max 0 xs)%nat.
Proof.
  induction xs as [|y xs IH]; [by intros ?%elem_of_nil|].
  intros [->|Hin]%elem_of_cons; simpl; [lia|]. specialize (IH Hin). lia.
Qed.

Section UtilFacts.

Variable F : Type.
Variable zero : F.
Variable of_index : nat → F.
Variable fdiv : F → F → F.

Lemma time_axis_length n fS : length (time_axis F of_index fdiv n fS) = n.
Proof. unfold time_axis. by rewrite length_map, length_seq. Qed.

Lemma time_axis_lookup n fS i :
  i < n →
  time_axis F of_index fdiv n fS !! i = Some (fdiv (of_index i) fS).
Proof.
  intros Hi. unfold time_axis.
  change (map ?f ?l) with (f <$> l).
  by rewrite list_lookup_fmap, lookup_seq_lt.
Qed.

Lemma np_pad_right_length a max_len :
  (length a ≤ max_len)%nat →
  length (np_pad_right F zero a (max_len - length a)) = max_len.
Proof.
  intros Hle. unfold np_pad_right.
  rewrite length_app, length_replicate. lia.
Qed.

Lemma longest_bound audio_dat e :
  e ∈ audio_dat → (length e.2 ≤ longest F audio_dat)%nat.
Proof.
  intros Hin. apply foldr_max_bound.
  change (map ?f ?l) with (f <$> l). apply list_elem_of_fmap. eauto.
Qed.

(** One turn of the loop on a fresh subplot. *)
Lemma plot_channel_fresh t max_len done rest e fig :
  length t = max_len → (length e.2 ≤ max_len)%nat →
  subplots fig = (done ++ empty_axes :: rest)%list →
  plot_channel F zero t max_len (length done, e) fig
  = (Return (),
     with_subplots F (done ++ drawn F zero t max_len e :: rest)%list fig).
Proof.
  intros Ht Hle Hsub. destruct e as [n sig]. simpl in Hle.
  unfold plot_channel, bind, ax_plot, on_axes, modify. simpl.
  rewrite Ht, np_pad_right_length by done. rewrite Nat.eqb_refl. simpl.
  rewrite Hsub. f_equal. unfold with_subplots. simpl. f_equal.
  replace (length done) with (length done + 0) by lia.
  by rewrite !alter_app_r.
Qed.

Lemma plot_loop t max_len items : ∀ done fig,
  length t = max_len →
  Forall (λ e, (length e.2 ≤ max_len)%nat) items →
  subplots fig = (done ++ replicate (length items) empty_axes)%list →
  for_each (zip (seq (length done) (length items)) items)
    (plot_channel F zero t max_len) fig
  = (Return (),
     with_subplots F (done ++ (drawn F zero t max_len <$> items))%list fig).
Proof.
  induction items as [|e items IH]; intros done fig Ht Hall Hsub.
  - simpl in *. unfold ret. rewrite <- Hsub. by destruct fig.
  - apply Forall_cons in Hall as [He Hall].
    simpl length. simpl seq. simpl zip. rewrite for_each_cons.
    rewrite (plot_channel_fresh t max_len done
               (replicate (length items) empty_axes) e fig Ht He Hsub).
    pose proof (IH (done ++ [drawn F zero t max_len e])%list
      (with_subplots F (done ++ drawn F zero t max_len e
         :: replicate (length items) empty_axes)%list fig) Ht Hall) as IH'.
    rewrite length_app in IH'. simpl in IH'.
    rewrite Nat.add_1_r in IH'. rewrite IH'.
    + simpl. by rewrite <- app_assoc.
    + simpl. by rewrite <- app_assoc.
Qed.

End UtilFacts.

Section PlotAudioDat.

Variable F : Type.
Variable zero : F.
Variable of_index : nat → F.
Variable fdiv : F → F → F.

(** X15.  With two or more channels the figure comes out as described:
    one subplot per item, in order, each showing the signal padded with
    zeros to the longest length over the common time axis. *)
Lemma plot_audio_dat_two_or_more audio_dat fS :
  (2 ≤ length audio_dat)%nat →
  let max_len := longest F audio_dat in
  let t := time_axis F of_index fdiv max_len fS in
  plot_audio_dat F zero of_index fdiv audio_dat fS no_figure
  = (Return (),
     {| suptitle := Some "Audio data";
        subplots := drawn F zero t max_len <$> audio_dat;
        tight := true; shown := true |}) ∧
  length t = max_len ∧
  (∀ i, i < max_len → t !! i = Some (fdiv (of_index i) fS)) ∧
  (∀ e, e ∈ audio_dat →
     length (np_pad_right F zero e.2 (max_len - length e.2)) = max_len).
Proof.
  intros Hlen max_len t.
  assert (length t = max_len) as Ht by apply time_axis_length.
  assert (Forall (λ e, (length e.2 ≤ max_len)%nat) audio_dat) as Hall.
  { apply Forall_forall. intros e He. by apply longest_bound. }
  split; [|split; [done|split]].
  - destruct audio_dat as [|e1 [|e2 rest]]; simpl in Hlen; [lia|lia|].
    unfold plot_audio_dat.
    set (items := e1 :: e2 :: rest) in *.
    unfold bind at 1 2.
    change (plt_subplots F (length items) no_figure)
      with (Return (AxesArray (seq 0 (length items))),
            with_subplots F (replicate (length items) empty_axes)
              (@no_figure F)).
    unfold modify at 1. unfold bind at 1. unfold lift at 1.
    change (py_max (map (λ e, length e.2) items))
      with (py_max (length e1.2 :: map (λ e, length e.2) (e2 :: rest))).
    rewrite py_max_cons.
    change (foldr Nat.max 0
              (length e1.2 :: map (λ e, length e.2) (e2 :: rest)))
      with max_len.
    unfold bind at 1. unfold lift at 1. unfold zip_axs.
    unfold bind at 1.
    pose proof (plot_loop F zero t max_len items []
      (with_suptitle F "Audio data"
         (with_subplots F (replicate (length items) empty_axes)
            (@no_figure F))) Ht Hall eq_refl) as Hloop.
    simpl length in Hloop at 1. fold t. rewrite Hloop.
    reflexivity.
  - intros i Hi. by apply time_axis_lookup.
  - intros e He. apply np_pad_right_length.
    rewrite Forall_forall in Hall. by apply Hall.
Qed.

(** C9.  On a mapping with a single entry the call does not plot:
    [plt.subplots(1)] hands back the [Axes] object itself, [zip] cannot
    iterate over it, and [TypeError] is raised with the one subplot
    still empty and the figure not shown. *)
Theorem plot_audio_dat_single_entry_raises
    (n : pyname) (audio_signal : list F) (fS : F) :
  plot_audio_dat F zero of_index fdiv [(n, audio_signal)] fS no_figure
  = (Raise (TypeError "'Axes' object is not iterable"),
     {| suptitle := Some "Audio data"; subplots := [empty_axes];
        tight := false; shown := false |}).
Proof. reflexivity. Qed.

End PlotAudioDat.

(** ** References never dangle *)

Lemma Mic_new_total (json_dumps : json_mic_obj → string) o dn :
  (∃ mic, Mic_new json_dumps o dn = Return mic) ∨
  (∃ param, Mic_new json_dumps o dn
            = Raise (ConfigError (missing_param_msg json_dumps param o))).
Proof.
  destruct (first_missing_param o) as [param|] eqn:Hm.
  - right. exists param. by apply Mic_new_raises.
  - left. apply complete_iff_none_missing, complete_fields in Hm
      as (f & p & Hf & Hp).
    eexists. by apply Mic_new_returns.
Qed.

Lemma constructor_refs
    (json_dumps : json_mic_obj → string)
    (json_load_file : string → outcome (list json_mic_obj))
    (fname : string) (arr : MicArray) :
  MicArray_new json_dumps json_load_file fname = Return arr →
  refs_valid arr ∧ refs_distinct arr.
Proof.
  intros (Hd & _)%constructor_establishes. split.
  - intros n i. rewrite Hd, dict_by_name_last.
    intros (mic & Hmic & _). eauto.
  - intros n n' i. rewrite Hd, !dict_by_name_last.
    intros (mic & Hmic & Hn & _) (mic' & Hmic' & Hn' & _). congruence.
Qed.

Lemma gen_names_refs arr :
  refs_valid arr ∧ refs_distinct arr →
  refs_valid (gen_names arr).2 ∧ refs_distinct (gen_names arr).2.
Proof.
  intros [Hv Hd]. split; [|done].
  intros n i Hn. simpl. rewrite gen_names_from_lookup.
  destruct (Hv n i Hn) as [mic ->]. eauto.
Qed.

Lemma validate_names_refs arr :
  refs_valid arr ∧ refs_distinct arr →
  refs_valid (validate_names arr).2 ∧ refs_distinct (validate_names arr).2.
Proof. done. Qed.

Lemma set_mic_locs_refs locs arr :
  refs_valid arr ∧ refs_distinct arr →
  refs_valid (set_mic_locs locs arr).2 ∧
  refs_distinct (set_mic_locs locs arr).2.
Proof.
  intros [Hv Hd]. rewrite set_mic_locs_run. split; [|done].
  intros n i Hn. simpl in *. rewrite write_all_lookup.
  destruct (Hv n i Hn) as [mic ->]. destruct (last_pos _ _ i); eauto.
Qed.


(** The constructor stops at the first object that lacks a required key. *)
Lemma MicArray_new_incomplete
    (json_dumps : json_mic_obj → string)
    (json_load_file : string → outcome (list json_mic_obj))
    (fname : string) (pre : list json_mic_obj) (o : json_mic_obj)
    (post : list json_mic_obj) (param : string) :
  json_load_file fname = Return (pre ++ o :: post)%list →
  Forall complete pre →
  first_missing_param o = Some param →
  MicArray_new json_dumps json_load_file fname
  = Raise (ConfigError (missing_param_msg json_dumps param o)).
Proof.
  intros Hload Hpre Hm. unfold MicArray_new.
  rewrite (MicArray_init_loaded _ _ fname _ Hload).
  rewrite for_each_app, (load_loop_complete _ pre _ Hpre), for_each_cons.
  by rewrite (append_mic_incomplete _ o _ param Hm).
Qed.

(** ** The program on the example configuration *)

Example end_to_end :
  MicArray_new example_dumps example_files "mic_cfg.json"
    = Return example_array ∧
  nChannels example_array = 2 ∧
  (get_sample_freq example_array).1 = Return (Some 16000%Z) ∧
  (validate_names example_array).1 = Return true ∧
  (__contains__ (StrName "A") example_array).1 = Return true ∧
  (__contains__ (StrName "C") example_array).1 = Return false.
Proof. repeat split; vm_compute; reflexivity. Qed.

Example unnamed_mic_indexed_under_None :
  name_to_mic unnamed_array !! NoneName = Some 1 ∧
  (validate_names unnamed_array).1 = Return false ∧
  (get_sample_freq unnamed_array).1 = Return None.
Proof. repeat split; vm_compute; reflexivity. Qed.

Example missing_file_propagates :
  MicArray_new example_dumps example_files "nowhere.json"
  = Raise (OSError "nowhere.json").
Proof. reflexivity. Qed.


Example set_mic_locs_stops_at_unknown_name :
  let arr' :=
    set_mics (alter (set_pos (np_array unit_x)) 0 (mics example_array))
      example_array in
  set_mic_locs example_locs example_array
  = (Raise (InvalidInput "Mic name Z does not exist in the mic array"),
     arr') ∧
  pos <$> mics arr' !! 0 = Some (np_array unit_x) ∧
  pos <$> mics arr' !! 1 = Some (np_array unit_x) ∧
  pos <$> mics example_array !! 0 = Some (np_array origin).
Proof. repeat split; vm_compute; reflexivity. Qed.


Lemma set_mic_locs_changes_positions_only_witness :
  let out := Raise (InvalidInput (no_such_mic_msg (StrName "Z"))) in
  let arr' :=
    set_mics (alter (set_pos (np_array unit_x)) 0 (mics example_array))
      example_array in
  set_mic_locs example_locs example_array = (out, arr') ∧
  (out = Return () ∨ ∃ n, out = Raise (InvalidInput (no_such_mic_msg n))) ∧
  cfg_fname arr' = cfg_fname example_array ∧
  nChannels arr' = nChannels example_array ∧
  valid_names arr' = valid_names example_array ∧
  name_to_mic arr' = name_to_mic example_array ∧
  length (mics arr') = length (mics example_array) ∧
  name <$> mics arr' = name <$> mics example_array ∧
  fS <$> mics arr' = fS <$> mics example_array ∧
  (∀ i, (∀ n p, (n, p) ∈ processed (name_to_mic example_array) example_locs →
                name_to_mic example_array !! n ≠ Some i) →
        mics arr' !! i = mics example_array !! i).
Proof.
  intros out arr'.
  assert (set_mic_locs example_locs example_array = (out, arr')) as Hrun
    by (vm_compute; reflexivity).
  split; [exact Hrun|].
  exact (set_mic_locs_changes_positions_only example_array example_locs
           out arr' Hrun).
Defined.

Lemma gen_names_leaves_name_to_mic_stale_witness :
  ∃ arr',
    gen_names example_array = (Return (), arr') ∧
    name_to_mic arr' = name_to_mic example_array ∧
    (∀ n found, __contains__ n example_array = (Return found, example_array) ↔
                __contains__ n arr' = (Return found, arr')) ∧
    (∀ locs out arr1,
       set_mic_locs locs example_array = (out, arr1) →
       ∃ arr1', gen_names arr1 = (Return (), arr1') ∧
                set_mic_locs locs arr' = (out, arr1')) ∧
    (∀ json_dumps json_load_file fname,
       MicArray_new json_dumps json_load_file fname = Return example_array →
       dom (name_to_mic arr') = list_to_set (name <$> mics example_array)).
Proof. apply (gen_names_leaves_name_to_mic_stale example_array). Defined.

Example stale_index_after_gen_names :
  let arr' := (gen_names example_array).2 in
  name <$> mics arr' = [IntName 0; IntName 1] ∧
  (__contains__ (StrName "A") arr').1 = Return true ∧
  (__contains__ (IntName 0) arr').1 = Return false ∧
  (set_mic_locs [(IntName 0, unit_x)] arr').1
  = Raise (InvalidInput "Mic name 0 does not exist in the mic array").
Proof. repeat split; vm_compute; reflexivity. Qed.

Example plot_one_channel_raises :
  (plot_audio_dat Z 0%Z Z.of_nat Z.div [(StrName "A", [1; 2; 3]%Z)] 16000%Z
     no_figure).1
  = Raise (TypeError "'Axes' object is not iterable").
Proof. reflexivity. Qed.

Example plot_two_channels_pads :
  subplots
    (plot_audio_dat Z 0%Z Z.of_nat Z.div
       [(StrName "A", [5; 6; 7; 8]%Z); (IntName 1, [9]%Z)] 2%Z no_figure).2
  = [ {| title := Some "Audio source from speaker/microphone A";
         curves := [([0; 0; 1; 1]%Z, [5; 6; 7; 8]%Z)];
         xlabel := Some "Time (s)"; ylabel := Some "Signal" |};
      {| title := Some "Audio source from speaker/microphone 1";
         curves := [([0; 0; 1; 1]%Z, [9; 0; 0; 0]%Z)];
         xlabel := Some "Time (s)"; ylabel := Some "Signal" |} ].
Proof. vm_compute. reflexivity. Qed.

(** * Further properties of the code *)

(** ** Outcomes of the constructors *)

(** X1.  [Mic(...)] returns an object exactly when the mapping has both
    keys fS and pos.  Otherwise it raises [ConfigError] for the first
    missing key in the order fS, pos: a mapping without fS is reported
    for fS even when pos is missing too.  No other exception arises. *)
Theorem Mic_new_returns_iff_both_keys
    (json_dumps : json_mic_obj → string) (o : json_mic_obj)
    (default_name : pyname) :
  ((∃ mic, Mic_new json_dumps o default_name = Return mic) ↔
   has_key "fS" o = true ∧ has_key "pos" o = true) ∧
  (has_key "fS" o = false →
   Mic_new json_dumps o default_name
   = Raise (ConfigError (missing_param_msg json_dumps "fS" o))) ∧
  (has_key "fS" o = true → has_key "pos" o = false →
   Mic_new json_dumps o default_name
   = Raise (ConfigError (missing_param_msg json_dumps "pos" o))).
Proof.
  rewrite has_key_fS, has_key_pos.
  destruct (json_fS o) as [f|] eqn:Hf, (json_pos o) as [p|] eqn:Hp; simpl.
  - split; [|split; done]. split; [done|]. intros _.
    eexists. by apply Mic_new_returns.
  - assert (first_missing_param o = Some "pos") as Hm
      by (unfold first_missing_param; by rewrite Hf, Hp).
    rewrite (Mic_new_raises json_dumps o default_name _ Hm).
    split; [|done]. split; [by intros [? ?]|by intros [? ?]].
  - assert (first_missing_param o = Some "fS") as Hm
      by (unfold first_missing_param; by rewrite Hf).
    rewrite (Mic_new_raises json_dumps o default_name _ Hm).
    split; [|done]. split; [by intros [? ?]|by intros [? ?]].
  - assert (first_missing_param o = Some "fS") as Hm
      by (unfold first_missing_param; by rewrite Hf).
    rewrite (Mic_new_raises json_dumps o default_name _ Hm).
    split; [|done]. split; [by intros [? ?]|by intros [? ?]].
Qed.



(** X3.  [MicArray(fname)] passes on unchanged whatever exception reading
    and parsing the file raises.  When the file parses, the constructor
    returns exactly when every object has both required keys, and
    otherwise raises the [ConfigError] of the first object that lacks
    one, whatever follows it. *)
Theorem MicArray_new_outcomes
    (json_dumps : json_mic_obj → string)
    (json_load_file : string → outcome (list json_mic_obj))
    (fname : string) :
  (∀ e, json_load_file fname = Raise e →
        MicArray_new json_dumps json_load_file fname = Raise e) ∧
  (∀ data, json_load_file fname = Return data →
     ((∃ arr, MicArray_new json_dumps json_load_file fname = Return arr) ↔
      Forall complete data)) ∧
  (∀ pre o post,
     json_load_file fname = Return (pre ++ o :: post)%list →
     Forall complete pre → ¬ complete o →
     ∃ param,
       param ∈ required_params ∧ has_key param o = false ∧
       MicArray_new json_dumps json_load_file fname
       = Raise (ConfigError (missing_param_msg json_dumps param o))).
Proof.
  split; [|split].
  - intros e Hload.
    unfold MicArray_new, MicArray__init__, _load_cfg, bind, get, lift, modify.
    simpl. by rewrite Hload.
  - intros data Hload. split.
    + intros [arr Harr].
      apply MicArray_new_inv in Harr as (data' & Hload' & Hall & _).
      congruence.
    + intros Hall. eexists. by apply MicArray_new_complete.
  - intros pre o post Hload Hpre Ho.
    destruct (first_missing_param o) as [param|] eqn:Hm.
    + exists param.
      pose proof Hm as Hcase.
      eapply first_missing_param_cases in Hcase as [? ?]; [|exact json_dumps].
      split; [done|]. split; [done|].
      by eapply MicArray_new_incomplete.
    + by apply complete_iff_none_missing in Hm.
Qed.

(** ** What no method changes *)

Lemma gen_names_from_keeps {A} (proj : Mic → A) idx ms :
  (∀ n mic, proj (set_name n mic) = proj mic) →
  proj <$> gen_names_from idx ms = proj <$> ms.
Proof.
  intros Hproj. apply list_eq. intros i.
  rewrite !list_lookup_fmap, gen_names_from_lookup.
  destruct (ms !! i); simpl; [|done]. by rewrite Hproj.
Qed.

Lemma after_call_frame arr c :
  cfg_fname (after_call arr c) = cfg_fname arr ∧
  nChannels (after_call arr c) = nChannels arr ∧
  name_to_mic (after_call arr c) = name_to_mic arr ∧
  length (mics (after_call arr c)) = length (mics arr) ∧
  fS <$> mics (after_call arr c) = fS <$> mics arr.
Proof.
  destruct c as [| | |n|locs]; simpl; try done.
  - repeat split; try done.
    + apply gen_names_from_length.
    + by apply gen_names_from_keeps.
  - rewrite set_mic_locs_run. simpl. repeat split; try done.
    + apply write_all_length.
    + by apply write_all_keeps.
Qed.

Lemma after_call_refs arr c :
  refs_valid arr ∧ refs_distinct arr →
  refs_valid (after_call arr c) ∧ refs_distinct (after_call arr c).
Proof.
  destruct c as [| | |n|locs]; simpl; try done.
  - apply gen_names_refs.
  - apply set_mic_locs_refs.
Qed.

Lemma after_calls_snoc arr cs c :
  after_calls arr (cs ++ [c]) = after_call (after_calls arr cs) c.
Proof. unfold after_calls. by rewrite foldl_snoc. Qed.

Lemma after_calls_frame arr cs :
  cfg_fname (after_calls arr cs) = cfg_fname arr ∧
  nChannels (after_calls arr cs) = nChannels arr ∧
  name_to_mic (after_calls arr cs) = name_to_mic arr ∧
  length (mics (after_calls arr cs)) = length (mics arr) ∧
  fS <$> mics (after_calls arr cs) = fS <$> mics arr.
Proof.
  induction cs as [|c cs IH] using rev_ind; [done|].
  rewrite after_calls_snoc.
  destruct (after_call_frame (after_calls arr cs) c) as (-> & -> & -> & -> & ->).
  exact IH.
Qed.

Lemma after_calls_refs arr cs :
  refs_valid arr ∧ refs_distinct arr →
  refs_valid (after_calls arr cs) ∧ refs_distinct (after_calls arr cs).
Proof.
  intros Hrefs. induction cs as [|c cs IH] using rev_ind; [done|].
  rewrite after_calls_snoc. by apply after_call_refs.
Qed.

Lemma sample_freq_loop_by_rates rval ms ms' :
  fS <$> ms = fS <$> ms' →
  sample_freq_loop rval ms = sample_freq_loop rval ms'.
Proof.
  revert rval ms'. induction ms as [|m ms IH]; intros rval [|m' ms'] Heq;
    try done.
  simpl in *. injection Heq as Hm Hrest. rewrite Hm.
  case_match; [done|]. by apply IH.
Qed.

Lemma validate_loop_by_names seen ms ms' :
  name <$> ms = name <$> ms' →
  validate_loop seen ms = validate_loop seen ms'.
Proof.
  revert seen ms'. induction ms as [|m ms IH]; intros seen [|m' ms'] Heq;
    try done.
  simpl in *. injection Heq as Hm Hrest. rewrite Hm.
  case_match; [done|]. by apply IH.
Qed.

(** X4.  Whatever public methods are called on a constructed array, in
    whatever order and whether or not they raise, the array keeps
    [nChannels = len(mics)] and the number of objects of the file; its
    file name, its name index and the sample rate of every mic stay what
    the constructor made them, so [get_sample_freq] always gives the
    answer it gave first; and every entry of the name index refers to a
    mic of the list, no two entries to the same mic. *)
Theorem method_calls_keep_invariants
    (json_dumps : json_mic_obj → string)
    (json_load_file : string → outcome (list json_mic_obj))
    (fname : string) (data : list json_mic_obj) (arr0 : MicArray)
    (cs : list call) :
  json_load_file fname = Return data →
  MicArray_new json_dumps json_load_file fname = Return arr0 →
  let arr := after_calls arr0 cs in
  nChannels arr = length (mics arr) ∧
  nChannels arr = length data ∧
  cfg_fname arr = fname ∧
  name_to_mic arr = name_to_mic arr0 ∧
  fS <$> mics arr = fS <$> mics arr0 ∧
  (get_sample_freq arr).1 = (get_sample_freq arr0).1 ∧
  (∀ n i, name_to_mic arr !! n = Some i → is_Some (mics arr !! i)) ∧
  (∀ n n' i, name_to_mic arr !! n = Some i →
             name_to_mic arr !! n' = Some i → n = n').
Proof.
  intros Hload Hnew arr.
  destruct (after_calls_frame arr0 cs) as (Hf & Hn & Hd & Hlen & Hrates).
  destruct (after_calls_refs arr0 cs (constructor_refs _ _ _ _ Hnew))
    as [Hvalid Hdistinct].
  apply MicArray_new_inv in Hnew as (data' & Hload' & _ & Harr0).
  assert (data' = data) as -> by congruence.
  fold arr in Hf, Hn, Hd, Hlen, Hrates, Hvalid, Hdistinct.
  assert (nChannels arr0 = length data) as Hn0 by (by rewrite Harr0).
  assert (length (mics arr0) = length data) as Hl0
    by (rewrite Harr0; simpl; by rewrite length_fmap).
  assert (cfg_fname arr0 = fname) as Hf0 by (by rewrite Harr0).
  repeat split; try congruence.
  - simpl. f_equal. by apply sample_freq_loop_by_rates.
  - exact Hvalid.
  - exact Hdistinct.
Qed.

Lemma method_calls_keep_invariants_witness :
  let arr := after_calls example_array example_calls in
  nChannels arr = length (mics arr) ∧
  nChannels arr = length [mic_A; mic_B] ∧
  cfg_fname arr = "mic_cfg.json" ∧
  name_to_mic arr = name_to_mic example_array ∧
  fS <$> mics arr = fS <$> mics example_array ∧
  (get_sample_freq arr).1 = (get_sample_freq example_array).1 ∧
  (∀ n i, name_to_mic arr !! n = Some i → is_Some (mics arr !! i)) ∧
  (∀ n n' i, name_to_mic arr !! n = Some i →
             name_to_mic arr !! n' = Some i → n = n').
Proof.
  apply (method_calls_keep_invariants example_dumps example_files
           "mic_cfg.json" [mic_A; mic_B] example_array example_calls);
    reflexivity.
Defined.

(** ** gen_names and validate_names together *)

Lemma gen_names_from_names idx ms :
  name <$> gen_names_from idx ms
  = (λ i, IntName (Z.of_nat i)) <$> seq idx (length ms).
Proof.
  revert idx. induction ms as [|mic ms IH]; intros idx; simpl; [done|].
  by rewrite IH.
Qed.

Lemma index_name_inj : Inj (=) (=) (λ i, IntName (Z.of_nat i)).
Proof. intros i j [= H]. lia. Qed.

Lemma generated_names_validate (arr : MicArray) :
  validate_loop ∅ (gen_names_from 0 (mics arr)) = true.
Proof.
  apply validate_loop_spec. split.
  - apply Forall_forall. intros mic Hin.
    apply list_elem_of_lookup in Hin as [i Hi].
    rewrite gen_names_from_lookup in Hi.
    destruct (mics arr !! i); [|done]. by injection Hi as <-.
  - rewrite gen_names_from_names.
    apply (@NoDup_fmap_2 _ _ _ index_name_inj), NoDup_seq.
Qed.

(** X5.  After [gen_names], [validate_names] always returns true and
    caches true, whatever the names were before: missing and duplicate
    names are repaired by the renaming. *)
Theorem validate_names_true_after_gen_names (arr : MicArray) :
  ∃ arr1 arr2,
    gen_names arr = (Return (), arr1) ∧
    validate_names arr1 = (Return true, arr2) ∧
    valid_names arr2 = Some true ∧
    mics arr2 = mics arr1.
Proof.
  eexists _, _. split; [apply gen_names_run|].
  rewrite validate_names_run. simpl.
  by rewrite generated_names_validate.
Qed.

(** X6.  [gen_names] is idempotent, and its result does not depend on the
    names held before: two arrays that differ only in the names of their
    mics are the same array after the call. *)
Theorem gen_names_forgets_names (arr arr' : MicArray) :
  gen_names (gen_names arr).2 = gen_names arr ∧
  (cfg_fname arr = cfg_fname arr' → nChannels arr = nChannels arr' →
   valid_names arr = valid_names arr' → name_to_mic arr = name_to_mic arr' →
   fS <$> mics arr = fS <$> mics arr' → pos <$> mics arr = pos <$> mics arr' →
   (gen_names arr).2 = (gen_names arr').2).
Proof.
  assert (∀ ms ms', fS <$> ms = fS <$> ms' → pos <$> ms = pos <$> ms' →
                    gen_names_from 0 ms = gen_names_from 0 ms') as Hforget.
  { intros ms ms' Hf Hp. apply list_eq. intros i.
    rewrite !gen_names_from_lookup.
    assert ((fS <$> ms) !! i = (fS <$> ms') !! i) as Hfi by (by rewrite Hf).
    assert ((pos <$> ms) !! i = (pos <$> ms') !! i) as Hpi by (by rewrite Hp).
    rewrite !list_lookup_fmap in Hfi. rewrite !list_lookup_fmap in Hpi.
    destruct (ms !! i) as [m|], (ms' !! i) as [m'|]; simpl in *; try done.
    injection Hfi as Hfi. injection Hpi as Hpi.
    unfold set_name. by rewrite Hfi, Hpi. }
  split.
  - rewrite !gen_names_run. simpl. f_equal. unfold set_mics. simpl. f_equal.
    apply Hforget; by apply gen_names_from_keeps.
  - intros Hc Hn Hv Hd Hf Hp. rewrite !gen_names_run. simpl.
    unfold set_mics. rewrite Hc, Hn, Hv, Hd. f_equal. by apply Hforget.
Qed.

Lemma gen_names_forgets_names_witness :
  gen_names (gen_names example_array).2 = gen_names example_array ∧
  (cfg_fname example_array = cfg_fname (gen_names example_array).2 →
   nChannels example_array = nChannels (gen_names example_array).2 →
   valid_names example_array = valid_names (gen_names example_array).2 →
   name_to_mic example_array = name_to_mic (gen_names example_array).2 →
   fS <$> mics example_array = fS <$> mics (gen_names example_array).2 →
   pos <$> mics example_array = pos <$> mics (gen_names example_array).2 →
   (gen_names example_array).2 = (gen_names (gen_names example_array).2).2).
Proof.
  apply (gen_names_forgets_names example_array (gen_names example_array).2).
Defined.

(** ** validate_names and the name index *)

Lemma size_list_to_set_le (l : list pyname) :
  (size (list_to_set l : gset pyname) ≤ length l)%nat.
Proof.
  induction l as [|x l IH].
  - by rewrite list_to_set_nil, size_empty.
  - rewrite list_to_set_cons, size_union_alt, size_singleton. simpl.
    assert (size (list_to_set l ∖ {[x]} : gset pyname)
            ≤ size (list_to_set l : gset pyname))%nat
      by (apply subseteq_size; set_solver).
    lia.
Qed.

Lemma size_list_to_set_NoDup (l : list pyname) :
  size (list_to_set l : gset pyname) = length l → NoDup l.
Proof.
  induction l as [|x l IH]; [constructor|].
  rewrite list_to_set_cons. simpl length.
  intros Hsize. pose proof (size_list_to_set_le l) as Hle.
  destruct (decide (x ∈ l)) as [Hin|Hnin].
  - exfalso.
    assert ({[x]} ∪ list_to_set l = (list_to_set l : gset pyname)) as Heq
      by set_solver.
    rewrite Heq in Hsize. lia.
  - constructor; [done|]. apply IH.
    rewrite size_union, size_singleton in Hsize by set_solver. lia.
Qed.

(** X7.  On an array fresh from its constructor, [validate_names] returns
    true exactly when the name index is a faithful directory of the
    mics: [None] is not one of its keys and it has as many entries as
    there are mics.  In that case every mic is found under its own
    name. *)
Theorem validate_names_iff_index_faithful
    (json_dumps : json_mic_obj → string)
    (json_load_file : string → outcome (list json_mic_obj))
    (fname : string) (arr : MicArray) :
  MicArray_new json_dumps json_load_file fname = Return arr →
  ((validate_names arr).1 = Return true ↔
   ((NoneName ∉ dom (name_to_mic arr)) ∧
    size (name_to_mic arr) = nChannels arr)) ∧
  ((validate_names arr).1 = Return true →
   ∀ i mic, mics arr !! i = Some mic →
            name_to_mic arr !! name mic = Some i).
Proof.
  intros Hnew.
  destruct (constructor_establishes _ _ _ _ Hnew) as (Hd & Hn & _).
  assert ((validate_names arr).1 = Return true ↔
          Forall (λ mic, name mic ≠ NoneName) (mics arr) ∧
          NoDup (name <$> mics arr)) as Hok.
  { rewrite validate_names_run. simpl. rewrite <- validate_loop_spec.
    split; [by intros [= ->]|by intros ->]. }
  split.
  - rewrite Hok, Hd, Hn, dict_by_name_dom, <- size_dom, dict_by_name_dom.
    split.
    + intros [Hall Hnd]. split.
      * rewrite elem_of_list_to_set.
        intros (mic & Heq & Hin)%list_elem_of_fmap.
        rewrite Forall_forall in Hall. by apply (Hall mic Hin).
      * rewrite size_list_to_set by done. by rewrite length_fmap.
    + intros [Hnone Hsize]. split.
      * apply Forall_forall. intros mic Hin Heq. apply Hnone.
        rewrite elem_of_list_to_set, <- Heq. apply list_elem_of_fmap. eauto.
      * apply size_list_to_set_NoDup. by rewrite length_fmap.
  - intros [_ Hnd]%Hok i mic Hmic. rewrite Hd. apply dict_by_name_last.
    exists mic. split; [done|]. split; [done|].
    intros j mic' Hj Hmic' Heq.
    assert ((name <$> mics arr) !! i = Some (name mic)) as Hi
      by (by rewrite list_lookup_fmap, Hmic).
    assert ((name <$> mics arr) !! j = Some (name mic)) as Hj'
      by (rewrite list_lookup_fmap, Hmic'; simpl; by rewrite Heq).
    pose proof (NoDup_lookup _ _ _ _ Hnd Hi Hj'). lia.
Qed.

Lemma validate_names_iff_index_faithful_witness :
  ((validate_names unnamed_array).1 = Return true ↔
   ((NoneName ∉ dom (name_to_mic unnamed_array)) ∧
    size (name_to_mic unnamed_array) = nChannels unnamed_array)) ∧
  ((validate_names unnamed_array).1 = Return true →
   ∀ i mic, mics unnamed_array !! i = Some mic →
            name_to_mic unnamed_array !! name mic = Some i).
Proof.
  apply (validate_names_iff_index_faithful example_dumps example_files
           "unnamed.json" unnamed_array).
  reflexivity.
Defined.

(** ** get_sample_freq *)

(** X8.  [get_sample_freq] answers with a rate exactly when the array has
    at least one mic and every mic has that rate: an answer other than
    [None] is never given for mixed rates. *)
Theorem get_sample_freq_some_iff (arr : MicArray) (f : Z) :
  (get_sample_freq arr).1 = Return (Some f) ↔
  mics arr ≠ [] ∧ Forall (λ mic, fS mic = f) (mics arr).
Proof.
  rewrite get_sample_freq_run. simpl.
  destruct (mics arr) as [|m ms]; simpl.
  - split; [done|]. by intros [? _].
  - destruct (decide (Forall (λ mic, fS mic = fS m) ms)) as [Hall|Hnot].
    + rewrite (sample_freq_loop_same _ _ Hall). split.
      * intros [= <-]. split; [done|]. by constructor.
      * intros [_ [-> _]%Forall_cons]. done.
    + apply not_Forall_Exists in Hnot; [|intros x; apply _].
      apply Exists_exists in Hnot as (mic & Hin & Hmic).
      rewrite (sample_freq_loop_differ _ _ mic Hin Hmic).
      split; [done|]. intros [_ [Hm Hall]%Forall_cons]. exfalso.
      rewrite Forall_forall in Hall. apply Hmic.
      by rewrite (Hall mic Hin), Hm.
Qed.

(** ** set_mic_locs: splitting, repeating, resuming *)

Lemma write_all_twice d locs ms :
  write_all d locs (write_all d locs ms) = write_all d locs ms.
Proof.
  apply list_eq. intros i. rewrite !write_all_lookup.
  destruct (last_pos d locs i); [|done]. by destruct (ms !! i).
Qed.

(** X9.  One call of [set_mic_locs] on [l1 ++ l2] is the call on [l1]
    followed, if that returned, by the call on [l2].  So after a call
    that raised at an unknown name, calling again with the pairs that
    came after it leaves the array as a single call without the unknown
    pair would have. *)
Theorem set_mic_locs_in_two_calls
    (arr : MicArray) (l1 l2 : list (pyname * coords)) :
  set_mic_locs (l1 ++ l2) arr
  = match set_mic_locs l1 arr with
    | (Return _, arr1) => set_mic_locs l2 arr1
    | (Raise e, arr1) => (Raise e, arr1)
    end ∧
  (∀ n p, Forall (known (name_to_mic arr)) l1 →
          name_to_mic arr !! n = None →
          set_mic_locs l2 (set_mic_locs (l1 ++ (n, p) :: l2) arr).2
          = set_mic_locs (l1 ++ l2) arr).
Proof.
  assert (∀ k1 k2 a,
            set_mic_locs (k1 ++ k2) a
            = match set_mic_locs k1 a with
              | (Return _, a1) => set_mic_locs k2 a1
              | (Raise e, a1) => (Raise e, a1)
              end) as Happ.
  { intros k1 k2 a. unfold set_mic_locs. apply for_each_app. }
  split; [apply Happ|].
  intros n p Hl1 Hn.
  destruct (processed_known _ _ Hl1) as [Hproc Hmiss].
  rewrite (Happ l1 l2), (Happ l1 ((n, p) :: l2)).
  rewrite (set_mic_locs_run l1), Hproc, Hmiss.
  rewrite set_mic_locs_cons. simpl. by rewrite Hn.
Qed.

(** X10.  [set_mic_locs] is idempotent: calling it again with the same
    mapping, after it returned or after it raised, ends the same way and
    leaves the array as the first call left it. *)
Theorem set_mic_locs_repeat (arr : MicArray) (locs : list (pyname * coords)) :
  set_mic_locs locs (set_mic_locs locs arr).2 = set_mic_locs locs arr.
Proof.
  rewrite !set_mic_locs_run. simpl. by rewrite write_all_twice.
Qed.

(** X11.  A call of [set_mic_locs], returning or raising, changes the
    answer of no query: [validate_names], [get_sample_freq] and
    [name in array] answer afterwards as they would have before, and a
    later [set_mic_locs] ends the same way as it would have ended. *)
Theorem set_mic_locs_keeps_answers
    (arr : MicArray) (locs : list (pyname * coords)) :
  (validate_names (set_mic_locs locs arr).2).1 = (validate_names arr).1 ∧
  (get_sample_freq (set_mic_locs locs arr).2).1 = (get_sample_freq arr).1 ∧
  (∀ n, (__contains__ n (set_mic_locs locs arr).2).1
        = (__contains__ n arr).1) ∧
  (∀ locs', (set_mic_locs locs' (set_mic_locs locs arr).2).1
            = (set_mic_locs locs' arr).1).
Proof.
  rewrite (set_mic_locs_run locs). simpl. repeat split.
  - f_equal. apply validate_loop_by_names. by apply write_all_keeps.
  - f_equal. apply sample_freq_loop_by_rates. by apply write_all_keeps.
  - intros locs'. by rewrite !set_mic_locs_run.
Qed.



(** ** The stale index, seen from a caller *)

(** X13.  If no configured name is an integer, then after [gen_names] no
    mic can be addressed by the name it now bears: [name in array] is
    false for the name of every mic, and [set_mic_locs] raises the
    invalid-input error at once, changing nothing, whenever its first
    key is an integer. *)
Theorem generated_names_are_not_keys
    (json_dumps : json_mic_obj → string)
    (json_load_file : string → outcome (list json_mic_obj))
    (fname : string) (arr : MicArray) :
  MicArray_new json_dumps json_load_file fname = Return arr →
  Forall (λ mic, ∀ z, name mic ≠ IntName z) (mics arr) →
  ∃ arr',
    gen_names arr = (Return (), arr') ∧
    (∀ i mic, mics arr' !! i = Some mic →
              __contains__ (name mic) arr' = (Return false, arr')) ∧
    (∀ z p rest,
       set_mic_locs ((IntName z, p) :: rest) arr'
       = (Raise (InvalidInput (no_such_mic_msg (IntName z))), arr')).
Proof.
  intros Hnew Hnames.
  destruct (constructor_establishes _ _ _ _ Hnew) as (Hd & _).
  assert (∀ z, name_to_mic arr !! IntName z = None) as Hnokey.
  { intros z. destruct (name_to_mic arr !! IntName z) as [i|] eqn:Hi; [|done].
    rewrite Hd in Hi. apply dict_by_name_last in Hi as (mic & Hmic & Hn & _).
    rewrite Forall_forall in Hnames. exfalso.
    apply (Hnames mic (list_elem_of_lookup_2 _ _ _ Hmic) z Hn). }
  eexists. split; [apply gen_names_run|]. split.
  - intros i mic. simpl. rewrite gen_names_from_lookup.
    destruct (mics arr !! i); [|done]. simpl. intros [= <-]. simpl.
    unfold __contains__, bind, get, ret. simpl. by rewrite Hnokey.
  - intros z p rest. rewrite set_mic_locs_cons. simpl. by rewrite Hnokey.
Qed.

Lemma generated_names_are_not_keys_witness :
  ∃ arr',
    gen_names example_array = (Return (), arr') ∧
    (∀ i mic, mics arr' !! i = Some mic →
              __contains__ (name mic) arr' = (Return false, arr')) ∧
    (∀ z p rest,
       set_mic_locs ((IntName z, p) :: rest) arr'
       = (Raise (InvalidInput (no_such_mic_msg (IntName z))), arr')).
Proof.
  apply (generated_names_are_not_keys example_dumps example_files
           "mic_cfg.json" example_array).
  - reflexivity.
  - repeat constructor; intros z; discriminate.
Defined.

(** ** The empty configuration *)

(** X14.  A configuration file holding the empty array gives an array
    with no channel and an empty name index; on it [validate_names]
    returns true, [get_sample_freq] returns [None], [gen_names] changes
    nothing, no name is in the array, and [set_mic_locs] raises for the
    first key of any non-empty mapping. *)
Theorem empty_configuration
    (json_dumps : json_mic_obj → string)
    (json_load_file : string → outcome (list json_mic_obj))
    (fname : string) :
  json_load_file fname = Return [] →
  ∃ arr,
    MicArray_new json_dumps json_load_file fname = Return arr ∧
    nChannels arr = 0 ∧ mics arr = [] ∧ name_to_mic arr = ∅ ∧
    validate_names arr = (Return true, set_valid_names (Some true) arr) ∧
    get_sample_freq arr = (Return None, arr) ∧
    gen_names arr = (Return (), arr) ∧
    (∀ n, __contains__ n arr = (Return false, arr)) ∧
    (∀ n p rest,
       set_mic_locs ((n, p) :: rest) arr
       = (Raise (InvalidInput (no_such_mic_msg n)), arr)).
Proof.
  intros Hload. exists (loaded fname []).
  split; [by apply MicArray_new_complete|].
  repeat split.
Qed.

Lemma empty_configuration_witness :
  ∃ arr,
    MicArray_new example_dumps empty_files "none.json" = Return arr ∧
    nChannels arr = 0 ∧ mics arr = [] ∧ name_to_mic arr = ∅ ∧
    validate_names arr = (Return true, set_valid_names (Some true) arr) ∧
    get_sample_freq arr = (Return None, arr) ∧
    gen_names arr = (Return (), arr) ∧
    (∀ n, __contains__ n arr = (Return false, arr)) ∧
    (∀ n p rest,
       set_mic_locs ((n, p) :: rest) arr
       = (Raise (InvalidInput (no_such_mic_msg n)), arr)).
Proof.
  apply (empty_configuration example_dumps empty_files "none.json").
  reflexivity.
Defined.

(** ** plot_audio_dat at the edges *)

Lemma plot_audio_dat_two_or_more_witness :
  let max_len := longest Z example_audio in
  let t := time_axis Z Z.of_nat Z.div max_len 2%Z in
  plot_audio_dat Z 0%Z Z.of_nat Z.div example_audio 2%Z no_figure
  = (Return (),
     {| suptitle := Some "Audio data";
        subplots := drawn Z 0%Z t max_len <$> example_audio;
        tight := true; shown := true |}) ∧
  length t = max_len ∧
  (∀ i, i < max_len → t !! i = Some (Z.div (Z.of_nat i) 2%Z)) ∧
  (∀ e, e ∈ example_audio →
     length (np_pad_right Z 0%Z e.2 (max_len - length e.2)) = max_len).
Proof.
  apply (plot_audio_dat_two_or_more Z 0%Z Z.of_nat Z.div example_audio 2%Z).
  simpl. lia.
Defined.

(** X16.  On the empty mapping [plot_audio_dat] raises [ValueError]
    before anything is drawn: no subplot exists and nothing is shown. *)
Theorem plot_audio_dat_empty_raises
    (F : Type) (zero : F) (of_index : nat → F) (fdiv : F → F → F) (fS : F) :
  ∃ msg fig,
    plot_audio_dat F zero of_index fdiv [] fS no_figure
    = (Raise (ValueError msg), fig) ∧
    subplots fig = [] ∧ suptitle fig = None ∧ shown fig = false.
Proof. by eexists _, _. Qed.

(** ** More on outcomes and on the cached flag *)

Lemma first_missing_None d locs :
  first_missing d locs = None ↔ Forall (known d) locs.
Proof.
  induction locs as [|[n p] rest IH]; simpl.
  - split; [constructor|done].
  - rewrite Forall_cons. unfold known at 1. simpl.
    case_bool_decide as Hn.
    + rewrite IH. split; [by split|by intros [_ ?]].
    + split; [done|]. by intros [? _].
Qed.

(** X17.  [set_mic_locs] returns exactly when every name of the mapping
    is a key of [name_to_mic]; in every other case it raises the
    invalid-input error, never a [KeyError] from the index. *)
Theorem set_mic_locs_returns_iff_all_known
    (arr : MicArray) (locs : list (pyname * coords)) :
  ((set_mic_locs locs arr).1 = Return () ↔
   Forall (known (name_to_mic arr)) locs) ∧
  ((set_mic_locs locs arr).1 ≠ Return () →
   ∃ n p, (n, p) ∈ locs ∧ name_to_mic arr !! n = None ∧
          (set_mic_locs locs arr).1
          = Raise (InvalidInput (no_such_mic_msg n))).
Proof.
  rewrite set_mic_locs_run. simpl. split.
  - rewrite <- first_missing_None.
    destruct (first_missing _ _); split; done.
  - destruct (first_missing (name_to_mic arr) locs) as [n|] eqn:Hm; [|done].
    intros _. clear -Hm. induction locs as [|[n0 p0] rest IH]; [done|].
    simpl in Hm. case_bool_decide as Hn0.
    + destruct (IH Hm) as (n' & p' & Hin & Hnone & Heq).
      exists n', p'. split; [by right|done].
    + injection Hm as ->. exists n, p0. split; [by left|]. split; [|done].
      destruct (name_to_mic arr !! n) eqn:Hl; [|done].
      exfalso. apply Hn0. eauto.
Qed.

(** X18.  [gen_names] does not refresh the cached flag: when a validation
    has returned false and [gen_names] is then called, [valid_names]
    still holds false although the names are now valid and a new call of
    [validate_names] returns true. *)
Theorem gen_names_leaves_valid_names_stale (arr : MicArray) :
  (validate_names arr).1 = Return false →
  ∃ arr1 arr2 arr3,
    validate_names arr = (Return false, arr1) ∧
    gen_names arr1 = (Return (), arr2) ∧
    valid_names arr2 = Some false ∧
    validate_names arr2 = (Return true, arr3) ∧
    valid_names arr3 = Some true.
Proof.
  intros Hfalse. rewrite validate_names_run in Hfalse. simpl in Hfalse.
  injection Hfalse as Hfalse.
  pose proof (generated_names_validate
                (set_valid_names (Some false) arr)) as Htrue.
  eexists _, _, _. split; [by rewrite validate_names_run, Hfalse|].
  split; [apply gen_names_run|]. split; [done|].
  rewrite validate_names_run. simpl in *. rewrite Htrue. done.
Qed.

Lemma gen_names_leaves_valid_names_stale_witness :
  ∃ arr1 arr2 arr3,
    validate_names unnamed_array = (Return false, arr1) ∧
    gen_names arr1 = (Return (), arr2) ∧
    valid_names arr2 = Some false ∧
    validate_names arr2 = (Return true, arr3) ∧
    valid_names arr3 = Some true.
Proof.
  apply (gen_names_leaves_valid_names_stale unnamed_array).
  reflexivity.
Defined.
